(** * istio-csr: the CA root controller and the request authorizer

    A shallow embedding of [pkg/controller/namespace.go] (both revisions of
    the controller that the file holds), of the fixtures of
    [pkg/server/auth_test.go] and of the duration flag of
    [cmd/app/options/options.go], with the properties of the design
    document proved over them.

    Go maps are [option (gmap string string)]: [None] is the nil map, which
    can be read but has to be allocated before the first write.  The
    Kubernetes client is a record of functions over an arbitrary store
    type; every call made through it is logged, so that a run of the
    controller yields its result, the store it leaves and the sequence of
    client calls it made. *)

From Stdlib Require Import ZArith String List.
From Stdlib.Strings Require Import Byte.
From stdpp Require Import base option list strings gmap fin_maps.

(** ** Kubernetes API objects *)

Module K8s.

(** A Go [map[string]string]; [None] is [nil]. *)
Definition gomap : Type := option (gmap string string).

(** [v, ok := m[k]]: reading a nil map finds nothing. *)
Definition go_lookup (m : gomap) (k : string) : option string :=
  match m with
  | None => None
  | Some g => g !! k
  end.

(** [if m == nil { m = make(map[string]string) }; m[k] = v]. *)
Definition go_store (m : gomap) (k v : string) : gomap :=
  match m with
  | None => Some (<[k:=v]> ∅)
  | Some g => Some (<[k:=v]> g)
  end.

(** [types.NamespacedName]. *)
Record NamespacedName : Type := mkNamespacedName
  { nn_Namespace : string;
    nn_Name : string }.

(** [corev1.ConfigMap], the fields the controller reads or writes. *)
Record ConfigMap : Type := mkConfigMap
  { cm_Name : string;
    cm_Namespace : string;
    cm_Labels : gomap;
    cm_Data : gomap }.

(** [corev1.Namespace]; [Status.Phase] is a string type in Go. *)
Record Namespace : Type := mkNamespace
  { ns_Name : string;
    ns_Phase : string }.

Definition NamespaceActive : string := "Active".
Definition NamespaceTerminating : string := "Terminating".

(** Go [error] values the controller sees or builds: a status error of the
    API machinery with its reason, and the result of
    [fmt.Errorf("failed to get %q: %s", key, err)].  The latter formats the
    cause with [%s], so it does not wrap it. *)
Inductive error : Type :=
  | StatusError (reason : string) (message : string)
  | FailedToGet (key : NamespacedName) (cause : error).

Definition StatusReasonNotFound : string := "NotFound".
Definition StatusReasonAlreadyExists : string := "AlreadyExists".

(** [apierrors.IsNotFound]. *)
Definition IsNotFound (err : error) : bool :=
  match err with
  | StatusError reason _ => bool_decide (reason = StatusReasonNotFound)
  | FailedToGet _ _ => false
  end.

Definition cm_key (cm : ConfigMap) : NamespacedName :=
  mkNamespacedName (cm_Namespace cm) (cm_Name cm).

#[global] Instance NamespacedName_eq_dec : EqDecision NamespacedName.
Proof. solve_decision. Defined.

#[global] Instance ConfigMap_eq_dec : EqDecision ConfigMap.
Proof. solve_decision. Defined.

#[global] Instance error_eq_dec : EqDecision error.
Proof. solve_decision. Defined.

(** The calls of [client.Client] that concern the controller. *)
Inductive Op : Type :=
  | OpGetNamespace (key : NamespacedName)
  | OpGetConfigMap (key : NamespacedName)
  | OpCreate (obj : ConfigMap)
  | OpUpdate (obj : ConfigMap)
  | OpDelete (obj : ConfigMap).

Definition is_write (o : Op) : bool :=
  match o with
  | OpCreate _ | OpUpdate _ | OpDelete _ => true
  | OpGetNamespace _ | OpGetConfigMap _ => false
  end.

Definition is_delete (o : Op) : bool :=
  match o with
  | OpDelete _ => true
  | _ => false
  end.

Definition count_writes (t : list Op) : nat := length (List.filter is_write t).

(** [client.Client] over a store of type [St].  Reads leave the store as it
    is; writes return the new store and the error, if any. *)
Record Client (St : Type) : Type := mkClient
  { client_GetNamespace : NamespacedName → St → error + Namespace;
    client_GetConfigMap : NamespacedName → St → error + ConfigMap;
    client_Create : ConfigMap → St → option error * St;
    client_Update : ConfigMap → St → option error * St;
    client_Delete : ConfigMap → St → option error * St }.

Arguments client_GetNamespace {St} _ _ _.
Arguments client_GetConfigMap {St} _ _ _.
Arguments client_Create {St} _ _ _.
Arguments client_Update {St} _ _ _.
Arguments client_Delete {St} _ _ _.

End K8s.

Import K8s.

(** ** Runs of the controller: store passing with a log of client calls *)

Module Run.

Definition M (St A : Type) : Type := St → A * St * list Op.

#[global] Instance M_ret {St} : MRet (M St) := λ A a s, (a, s, []).

#[global] Instance M_bind {St} : MBind (M St) := λ A B k m s,
  let '(a, s1, t1) := m s in
  let '(b, s2, t2) := k a s1 in
  (b, s2, t1 ++ t2).

Definition Get_Namespace {St} (c : Client St) (key : NamespacedName)
  : M St (error + Namespace) :=
  λ s, (client_GetNamespace c key s, s, [OpGetNamespace key]).

Definition Get_ConfigMap {St} (c : Client St) (key : NamespacedName)
  : M St (error + ConfigMap) :=
  λ s, (client_GetConfigMap c key s, s, [OpGetConfigMap key]).

Definition Create {St} (c : Client St) (obj : ConfigMap) : M St (option error) :=
  λ s, let '(e, s') := client_Create c obj s in (e, s', [OpCreate obj]).

Definition Update {St} (c : Client St) (obj : ConfigMap) : M St (option error) :=
  λ s, let '(e, s') := client_Update c obj s in (e, s', [OpUpdate obj]).

Definition Delete {St} (c : Client St) (obj : ConfigMap) : M St (option error) :=
  λ s, let '(e, s') := client_Delete c obj s in (e, s', [OpDelete obj]).

Definition result {St A} (r : A * St * list Op) : A := r.1.1.
Definition store {St A} (r : A * St * list Op) : St := r.1.2.
Definition calls {St A} (r : A * St * list Op) : list Op := r.2.

End Run.

Import Run.


(** [ctrl.Request] and [ctrl.Result] of controller-runtime. *)
Record Request : Type := mkRequest
  { req_NamespacedName : NamespacedName }.

Definition req_Name (req : Request) : string := nn_Name (req_NamespacedName req).
Definition req_Namespace (req : Request) : string :=
  nn_Namespace (req_NamespacedName req).

Record Result : Type := mkResult
  { Requeue : bool;
    RequeueAfter : Z }.

(** [ctrl.Result{}]. *)
Definition Result_zero : Result := mkResult false 0%Z.

(** ** First revision: the enforcer holds the desired data map *)

Module V1.

Definition IstioConfigLabelKey : string := "istio.io/config".

Record enforcer (St : Type) : Type := mkEnforcer
  { client : Client St;
    data : gomap;
    configMapName : string }.

Arguments client {St} _.
Arguments data {St} _.
Arguments configMapName {St} _.

Record namespace (St : Type) : Type := mkNamespaceCtl
  { namespace_client : Client St;
    namespace_enforcer : enforcer St }.

Arguments namespace_client {St} _.
Arguments namespace_enforcer {St} _.

Record configmap (St : Type) : Type := mkConfigmapCtl
  { configmap_client : Client St;
    configmap_enforcer : enforcer St }.

Arguments configmap_client {St} _.
Arguments configmap_enforcer {St} _.

(** One iteration of [for k, v := range e.data]: the accumulator is the
    pair of [cm.Data] and [notMatch]. *)
Definition range_step (k v : string) (acc : gomap * bool) : gomap * bool :=
  match go_lookup acc.1 k with
  | Some kv => if decide (v = kv) then acc else (go_store acc.1 k v, true)
  | None => (go_store acc.1 k v, true)
  end.

(** The whole loop; ranging over a nil map runs no iteration. *)
Definition range_data (data cmData : gomap) : gomap * bool :=
  match data with
  | None => (cmData, false)
  | Some d => map_fold range_step (cmData, false) d
  end.

(** [val, ok := cm.Labels[IstioConfigLabelKey]; !ok || val != "true"]. *)
Definition label_differs (labels : gomap) : bool :=
  match go_lookup labels IstioConfigLabelKey with
  | Some val => negb (bool_decide (val = "true"))
  | None => true
  end.

(** [func (e *enforcer) configmap(ctx, log, namespace string) error]. *)
Definition enforcer_configmap {St} (e : enforcer St) (namespace : string)
  : M St (option error) :=
  let namespacedName := mkNamespacedName namespace (configMapName e) in
  r ← Get_ConfigMap (client e) namespacedName;
  match r with
  | inl err =>
      if IsNotFound err then
        Create (client e)
          {| cm_Name := configMapName e;
             cm_Namespace := namespace;
             cm_Labels := Some {[ IstioConfigLabelKey := "true" ]};
             cm_Data := data e |}
      else mret (Some (FailedToGet namespacedName err))
  | inr cm =>
      let '(cmData, notMatch) := range_data (data e) (cm_Data cm) in
      let notMatch := if label_differs (cm_Labels cm) then true else notMatch in
      if notMatch then
        Update (client e)
          {| cm_Name := cm_Name cm;
             cm_Namespace := cm_Namespace cm;
             cm_Labels := go_store (cm_Labels cm) IstioConfigLabelKey "true";
             cm_Data := cmData |}
      else mret None
  end.

(** [func (c *configmap) Reconcile(ctx, req) (ctrl.Result, error)]. *)
Definition configmap_Reconcile {St} (c : configmap St) (req : Request)
  : M St (Result * option error) :=
  r ← Get_ConfigMap (configmap_client c) (req_NamespacedName req);
  match r with
  | inl err =>
      if negb (IsNotFound err) then
        mret (Result_zero, Some (FailedToGet (req_NamespacedName req) err))
      else
        err' ← enforcer_configmap (configmap_enforcer c)
                 (nn_Namespace (req_NamespacedName req));
        mret (Result_zero, err')
  | inr _ =>
      err' ← enforcer_configmap (configmap_enforcer c)
               (nn_Namespace (req_NamespacedName req));
      mret (Result_zero, err')
  end.

(** [func (n *namespace) Reconcile(ctx, req) (ctrl.Result, error)]. *)
Definition namespace_Reconcile {St} (n : namespace St) (req : Request)
  : M St (Result * option error) :=
  r ← Get_Namespace (namespace_client n) (req_NamespacedName req);
  match r with
  | inl err =>
      if IsNotFound err then mret (Result_zero, None)
      else mret (Result_zero, Some (FailedToGet (req_NamespacedName req) err))
  | inr ns =>
      if bool_decide (ns_Phase ns = NamespaceTerminating) then
        mret (Result_zero, None)
      else
        err' ← enforcer_configmap (namespace_enforcer n) (req_Name req);
        mret (Result_zero, err')
  end.

End V1.

(** ** Second revision: the enforcer holds a getter of the root CA *)

Module V2.

Definition IstioConfigLabelKey : string := "istio.io/config".

(** [type caGetter func() []byte]. *)
Definition caGetter : Type := unit → list byte.

Record enforcer (St : Type) : Type := mkEnforcer
  { client : Client St;
    rootCA : caGetter;
    configMapName : string }.

Arguments client {St} _.
Arguments rootCA {St} _.
Arguments configMapName {St} _.

Record namespace (St : Type) : Type := mkNamespaceCtl
  { namespace_client : Client St;
    namespace_enforcer : enforcer St }.

Arguments namespace_client {St} _.
Arguments namespace_enforcer {St} _.

Record configmap (St : Type) : Type := mkConfigmapCtl
  { configmap_client : Client St;
    configmap_enforcer : enforcer St }.

Arguments configmap_client {St} _.
Arguments configmap_enforcer {St} _.

(** [fmt.Sprintf("%s", b)] on a byte slice: the bytes as a string. *)
Definition Sprintf_s (b : list byte) : string := string_of_list_byte b.

Definition label_differs (labels : gomap) : bool :=
  match go_lookup labels IstioConfigLabelKey with
  | Some val => negb (bool_decide (val = "true"))
  | None => true
  end.

(** [func (e *enforcer) configmap(ctx, log, namespace string) error]. *)
Definition enforcer_configmap {St} (e : enforcer St) (namespace : string)
  : M St (option error) :=
  let namespacedName := mkNamespacedName namespace (configMapName e) in
  let rootCA := Sprintf_s (rootCA e ()) in
  let rootCAConfigData : gomap := Some {[ "root-cert.pem" := rootCA ]} in
  r ← Get_ConfigMap (client e) namespacedName;
  match r with
  | inl err =>
      if IsNotFound err then
        Create (client e)
          {| cm_Name := configMapName e;
             cm_Namespace := namespace;
             cm_Labels := Some {[ IstioConfigLabelKey := "true" ]};
             cm_Data := rootCAConfigData |}
      else mret (Some (FailedToGet namespacedName err))
  | inr cm =>
      let '(cmData, notMatch) :=
        match go_lookup (cm_Data cm) "root-cert.pem" with
        | Some data =>
            if decide (data = rootCA) then (cm_Data cm, false)
            else (go_store (cm_Data cm) "root-cert.pem" rootCA, true)
        | None => (go_store (cm_Data cm) "root-cert.pem" rootCA, true)
        end in
      let notMatch := if label_differs (cm_Labels cm) then true else notMatch in
      if notMatch then
        Update (client e)
          {| cm_Name := cm_Name cm;
             cm_Namespace := cm_Namespace cm;
             cm_Labels := go_store (cm_Labels cm) IstioConfigLabelKey "true";
             cm_Data := cmData |}
      else mret None
  end.

(** [func (c *configmap) Reconcile(ctx, req) (ctrl.Result, error)]. *)
Definition configmap_Reconcile {St} (c : configmap St) (req : Request)
  : M St (Result * option error) :=
  err ← enforcer_configmap (configmap_enforcer c)
          (nn_Namespace (req_NamespacedName req));
  mret (Result_zero, err).

(** [func (n *namespace) Reconcile(ctx, req) (ctrl.Result, error)]. *)
Definition namespace_Reconcile {St} (n : namespace St) (req : Request)
  : M St (Result * option error) :=
  r ← Get_Namespace (namespace_client n) (req_NamespacedName req);
  match r with
  | inl err =>
      if IsNotFound err then mret (Result_zero, None)
      else mret (Result_zero, Some (FailedToGet (req_NamespacedName req) err))
  | inr ns =>
      if bool_decide (ns_Phase ns = NamespaceTerminating) then
        mret (Result_zero, None)
      else
        err' ← enforcer_configmap (namespace_enforcer n) (req_Name req);
        mret (Result_zero, err')
  end.

End V2.

(** ** An in-memory cluster

    A store that keeps what is written to it, in the manner of the fake
    client of controller-runtime: [Create] refuses an object that exists,
    [Update] and [Delete] refuse one that does not.  It instantiates the
    client wherever a concrete run is evaluated. *)

Module Fake.

(** Namespaces by name with their phase; config maps by namespace and
    name with their labels and data. *)
Record Cluster : Type := mkCluster
  { namespaces : gmap string string;
    configmaps : gmap (string * string) (gomap * gomap) }.

Definition not_found : error := StatusError StatusReasonNotFound "not found".
Definition already_exists : error :=
  StatusError StatusReasonAlreadyExists "already exists".

Definition slot (key : NamespacedName) : string * string :=
  (nn_Namespace key, nn_Name key).

Definition GetNamespace (key : NamespacedName) (s : Cluster) : error + Namespace :=
  match namespaces s !! nn_Name key with
  | Some phase => inr (mkNamespace (nn_Name key) phase)
  | None => inl not_found
  end.

Definition GetConfigMap (key : NamespacedName) (s : Cluster) : error + ConfigMap :=
  match configmaps s !! slot key with
  | Some (labels, data) => inr (mkConfigMap (nn_Name key) (nn_Namespace key) labels data)
  | None => inl not_found
  end.

Definition put (obj : ConfigMap) (s : Cluster) : Cluster :=
  mkCluster (namespaces s)
    (<[slot (cm_key obj) := (cm_Labels obj, cm_Data obj)]> (configmaps s)).

Definition CreateConfigMap (obj : ConfigMap) (s : Cluster) : option error * Cluster :=
  match configmaps s !! slot (cm_key obj) with
  | Some _ => (Some already_exists, s)
  | None => (None, put obj s)
  end.

Definition UpdateConfigMap (obj : ConfigMap) (s : Cluster) : option error * Cluster :=
  match configmaps s !! slot (cm_key obj) with
  | Some _ => (None, put obj s)
  | None => (Some not_found, s)
  end.

Definition DeleteConfigMap (obj : ConfigMap) (s : Cluster) : option error * Cluster :=
  match configmaps s !! slot (cm_key obj) with
  | Some _ =>
      (None, mkCluster (namespaces s) (delete (slot (cm_key obj)) (configmaps s)))
  | None => (Some not_found, s)
  end.

Definition client : Client Cluster :=
  mkClient Cluster GetNamespace GetConfigMap
    CreateConfigMap UpdateConfigMap DeleteConfigMap.

End Fake.

(** ** What the enforcer wants, and what a store must provide *)

(** Every desired entry is stored with its desired value; a nil map of
    desired data asks for nothing. *)
Definition data_present (desired stored : gomap) : Prop :=
  ∀ k v, go_lookup desired k = Some v → go_lookup stored k = Some v.

(** The object already carries the desired data and the marker label. *)
Definition converged (desired : gomap) (cm : ConfigMap) : Prop :=
  data_present desired (cm_Data cm) ∧
  go_lookup (cm_Labels cm) V1.IstioConfigLabelKey = Some "true".

(** A store that reads back what was written: objects are filed under
    their own name, and a write that succeeded is what the next read of
    that name returns. *)
Record ReadsBack {St} (c : Client St) : Prop := mkReadsBack
  { get_key : ∀ key s cm, client_GetConfigMap c key s = inr cm → cm_key cm = key;
    get_created : ∀ obj s s',
      client_Create c obj s = (None, s') →
      client_GetConfigMap c (cm_key obj) s' = inr obj;
    get_updated : ∀ obj s s',
      client_Update c obj s = (None, s') →
      client_GetConfigMap c (cm_key obj) s' = inr obj }.

(** The object that the first revision creates in an empty slot. *)
Definition fresh_configmap (name namespace : string) (desired : gomap) : ConfigMap :=
  {| cm_Name := name;
     cm_Namespace := namespace;
     cm_Labels := Some {[ V1.IstioConfigLabelKey := "true" ]};
     cm_Data := desired |}.

(** The desired data of the second revision. *)
Definition rootCAConfigData (rootCA : V2.caGetter) : gomap :=
  Some {[ "root-cert.pem" := V2.Sprintf_s (rootCA ()) ]}.

(** The first-revision enforcer that a second-revision one amounts to. *)
Definition as_V1 {St} (e : V2.enforcer St) : V1.enforcer St :=
  V1.mkEnforcer St (V2.client e) (rootCAConfigData (V2.rootCA e)) (V2.configMapName e).

(** What holds of [cm.Data] and [notMatch] after the entries [m] of the
    desired data have been visited, starting from the stored data [cd]. *)
Record range_inv (cd : gomap) (m : gmap string string) (r : gomap * bool) : Prop :=
  mkRangeInv
  { inv_lookup : ∀ k,
      go_lookup r.1 k = match m !! k with
                        | Some v => Some v
                        | None => go_lookup cd k
                        end;
    inv_clean : r.2 = false → r.1 = cd;
    inv_dirty : r.2 = true ↔ ∃ k v, m !! k = Some v ∧ go_lookup cd k ≠ Some v }.

(** The object that an update sends: the stored one with the desired
    entries written over its data and the marker label set. *)
Definition merged (desired : gomap) (cm : ConfigMap) : ConfigMap :=
  {| cm_Name := cm_Name cm;
     cm_Namespace := cm_Namespace cm;
     cm_Labels := go_store (cm_Labels cm) V1.IstioConfigLabelKey "true";
     cm_Data := (V1.range_data desired (cm_Data cm)).1 |}.

(** The value of [notMatch] when the enforcer decides whether to update. *)
Definition needs_update (desired : gomap) (cm : ConfigMap) : bool :=
  V1.label_differs (cm_Labels cm) || (V1.range_data desired (cm_Data cm)).2.

(** The key under which the enforcer looks for its object. *)
Definition key_of {St} (e : V1.enforcer St) (namespace : string) : NamespacedName :=
  mkNamespacedName namespace (V1.configMapName e).


(** ** Options: the cert-manager flags *)

Module Options.

(** [time.Duration] counts nanoseconds. *)
Definition Duration : Type := Z.
Definition Second : Duration := 1000000000%Z.
Definition Hour : Duration := (3600 * Second)%Z.

(** [cmmeta.ObjectReference]. *)
Record ObjectReference : Type := mkObjectReference
  { ref_Name : string;
    ref_Kind : string;
    ref_Group : string }.

Record CertManagerOptions : Type := mkCertManagerOptions
  { issuerName : string;
    issuerKind : string;
    issuerGroup : string;
    MaximumClientCertificateDuration : Duration;
    Namespace : string;
    PreserveCRs : bool }.

(** The defaults that [CertManagerOptions.addFlags] registers. *)
Definition CertManagerOptions_defaults : CertManagerOptions :=
  {| issuerName := "istio-ca";
     issuerKind := "Issuer";
     issuerGroup := "cert-manager.io";
     MaximumClientCertificateDuration := (Hour * 24)%Z;
     Namespace := "istio-system";
     PreserveCRs := false |}.

(** [o.IssuerRef], as [Options.Complete] builds it. *)
Definition IssuerRef (o : CertManagerOptions) : ObjectReference :=
  {| ref_Name := issuerName o;
     ref_Kind := issuerKind o;
     ref_Group := issuerGroup o |}.

End Options.

(** ** The signing server *)

Module Server.

(** [net/url.URL], through its [String()] rendering. *)
Record URL : Type := mkURL
  { URL_String : string }.

(** [x509.CertificateRequest], the fields that carry names. *)
Record CertificateRequest : Type := mkCertificateRequest
  { Subject_CommonName : string;
    DNSNames : list string;
    EmailAddresses : list string;
    IPAddresses : list string;
    URIs : list URL }.

(** [authenticate.Caller]. *)
Record Caller : Type := mkCaller
  { Identities : list string }.

(** [authenticate.Authenticator] over request contexts of type [Ctx]; an
    error is its message. *)
Record Authenticator (Ctx : Type) : Type := mkAuthenticator
  { AuthenticatorType : string;
    Authenticate : Ctx → string + Caller }.

Arguments AuthenticatorType {Ctx} _.
Arguments Authenticate {Ctx} _ _.

(** [mockAuthenticator] of [auth_test.go]. *)
Record mockAuthenticator : Type := newMockAuthn
  { identities : list string;
    errMsg : string }.

Definition mock_Authenticate {Ctx} (authn : mockAuthenticator) (ctx : Ctx)
  : string + Caller :=
  if (0 <? String.length (errMsg authn))%nat then inl (errMsg authn)
  else inr {| Identities := identities authn |}.

Definition mock {Ctx} (authn : mockAuthenticator) : Authenticator Ctx :=
  {| AuthenticatorType := "mockAuthenticator";
     Authenticate := mock_Authenticate authn |}.

(** Modelled from the spec: [identitiesMatch] is called by the tests of
    [auth_test.go] but its body is not among the sources.  Section 4.1:
    true iff the two collections, treated as sets (duplicates and order
    ignored), are exactly equal, same cardinality, same elements.  The
    URIs are compared through their string rendering. *)
Definition identitiesMatch (a : list string) (b : list URL) : bool :=
  let sa := remove_dups a in
  let sb := remove_dups (URL_String <$> b) in
  bool_decide (length sa = length sb) && forallb (λ x, bool_decide (x ∈ sb)) sa.

(** What [authRequest] calls on its way. *)
Inductive Step : Type :=
  | StepAuthenticate
  | StepDecode.

(** Modelled from the spec: step 4 of section 4.2, any populated DNS-name,
    IP-address, email-address or subject-common-name field. *)
Definition has_extra_names (csr : CertificateRequest) : bool :=
  negb (bool_decide (DNSNames csr = []))
  || negb (bool_decide (IPAddresses csr = []))
  || negb (bool_decide (EmailAddresses csr = []))
  || negb (bool_decide (Subject_CommonName csr = "")).

(** Modelled from the spec: step 2 of section 4.2, the proven identities
    joined with commas in the order the authenticator gave them. *)
Definition join_identities (ids : list string) : string := String.concat "," ids.

(** Modelled from the spec: [Server.authRequest] is called by the tests of
    [auth_test.go] but its body is not among the sources.  Section 4.2,
    steps 1 to 6; the decoder of signing requests is a parameter.  Next to
    the pair the function returns, the steps it went through. *)
Definition authRequest {Ctx Payload : Type} (auther : Authenticator Ctx)
    (decode : Payload → option CertificateRequest) (ctx : Ctx) (icrpem : Payload)
  : string * bool * list Step :=
  match Authenticate auther ctx with
  | inl _ => ("", false, [StepAuthenticate])
  | inr caller =>
      match Identities caller with
      | [] => ("", false, [StepAuthenticate])
      | _ :: _ =>
          let identities := join_identities (Identities caller) in
          match decode icrpem with
          | None => (identities, false, [StepAuthenticate; StepDecode])
          | Some csr =>
              if has_extra_names csr then
                (identities, false, [StepAuthenticate; StepDecode])
              else if identitiesMatch (Identities caller) (URIs csr) then
                (identities, true, [StepAuthenticate; StepDecode])
              else (identities, false, [StepAuthenticate; StepDecode])
          end
      end
  end.

(** *** The fixtures of [auth_test.go] *)

(** Modelled from the spec: the test helper package [test/gen] is not
    among the sources.  A fixture payload is either bytes that do not
    decode or the encoding of a request; a modifier sets one field. *)
Inductive fixture : Type :=
  | Undecodable (bytes : string)
  | Encoded (csr : CertificateRequest).

Definition decode_fixture (p : fixture) : option CertificateRequest :=
  match p with
  | Undecodable _ => None
  | Encoded csr => Some csr
  end.

Definition CSRModifier : Type := CertificateRequest → CertificateRequest.

Definition SetCSRIdentities (ids : list string) : CSRModifier :=
  λ csr, mkCertificateRequest (Subject_CommonName csr) (DNSNames csr)
           (EmailAddresses csr) (IPAddresses csr) (mkURL <$> ids).
Definition SetCSRDNS (names : list string) : CSRModifier :=
  λ csr, mkCertificateRequest (Subject_CommonName csr) names
           (EmailAddresses csr) (IPAddresses csr) (URIs csr).
Definition SetCSRIPs (ips : list string) : CSRModifier :=
  λ csr, mkCertificateRequest (Subject_CommonName csr) (DNSNames csr)
           (EmailAddresses csr) ips (URIs csr).
Definition SetCSRCommonName (cn : string) : CSRModifier :=
  λ csr, mkCertificateRequest cn (DNSNames csr)
           (EmailAddresses csr) (IPAddresses csr) (URIs csr).
Definition SetCSREmails (emails : list string) : CSRModifier :=
  λ csr, mkCertificateRequest (Subject_CommonName csr) (DNSNames csr)
           emails (IPAddresses csr) (URIs csr).

Definition genCSR (mods : list CSRModifier) : fixture :=
  Encoded (foldl (λ csr f, f csr) (mkCertificateRequest "" [] [] [] []) mods).

(** The table of [TestIdentitiesMatch]: [aList], [bURL], [expMatch]. *)
Definition TestIdentitiesMatch_table : list (list string * list string * bool) :=
  [ ([], [], true);
    (["spiffee://foo.bar"], [], false);
    ([], ["spiffe://foo.bar"], false);
    (["spiffe://foo.bar"], ["spiffe://foo.bar"], true);
    (["spiffe://123.456"], ["spiffe://foo.bar"], false);
    (["spiffe://123.456"; "spiffe://foo.bar"],
     ["spiffe://123.456"; "spiffe://foo.bar"], true);
    (["spiffe://123.456"; "spiffe://foo.bar"],
     ["spiffe://foo.bar"; "spiffe://123.456"], true);
    (["spiffe://123.456"; "spiffe://foo.bar"],
     ["spiffe://123.456"; "spiffe://bar.foo"], false) ].

(** The table of [TestAuthRequest]: [authn], [inpCSR], [expIdenties],
    [expAuth]. *)
Definition TestAuthRequest_table
  : list (mockAuthenticator * fixture * string * bool) :=
  let foo_bar := ["spiffe://foo"; "spiffe://bar"] in
  [ (newMockAuthn [] "an error", Undecodable "", "", false);
    (newMockAuthn [] "", Undecodable "", "", false);
    (newMockAuthn foo_bar "", Undecodable "bad csr",
     "spiffe://foo,spiffe://bar", false);
    (newMockAuthn foo_bar "",
     genCSR [SetCSRIdentities foo_bar; SetCSRDNS ["example.com"; "jetstack.io"]],
     "spiffe://foo,spiffe://bar", false);
    (newMockAuthn foo_bar "",
     genCSR [SetCSRIdentities foo_bar; SetCSRIPs ["8.8.8.8"]],
     "spiffe://foo,spiffe://bar", false);
    (newMockAuthn foo_bar "",
     genCSR [SetCSRIdentities foo_bar; SetCSRCommonName "jetstack.io"],
     "spiffe://foo,spiffe://bar", false);
    (newMockAuthn foo_bar "",
     genCSR [SetCSRIdentities foo_bar;
             SetCSREmails ["joshua.vanleeuwen@jetstack.io"]],
     "spiffe://foo,spiffe://bar", false);
    (newMockAuthn foo_bar "",
     genCSR [SetCSRIdentities ["spiffe://josh"; "spiffe://bar"]],
     "spiffe://foo,spiffe://bar", false);
    (newMockAuthn foo_bar "",
     genCSR [SetCSRIdentities ["spiffe://bar"]],
     "spiffe://foo,spiffe://bar", false);
    (newMockAuthn foo_bar "",
     genCSR [SetCSRIdentities
               ["spiffe://foo"; "spiffe://bar"; "spiffe://joshua.vanleeuwen"]],
     "spiffe://foo,spiffe://bar", false);
    (newMockAuthn foo_bar "",
     genCSR [SetCSRIdentities foo_bar],
     "spiffe://foo,spiffe://bar", true);
    (newMockAuthn ["spiffe://foo"] "",
     genCSR [SetCSRIdentities ["spiffe://foo"]],
     "spiffe://foo", true) ].

(** One row of either table, as the test loop checks it. *)
Definition TestIdentitiesMatch_row (t : list string * list string * bool) : bool :=
  let '(aList, bURL, expMatch) := t in
  bool_decide (identitiesMatch aList (mkURL <$> bURL) = expMatch).

Definition TestAuthRequest_row (t : mockAuthenticator * fixture * string * bool)
  : bool :=
  let '(authn, inpCSR, expIdenties, expAuth) := t in
  let r := authRequest (mock authn) decode_fixture () inpCSR in
  bool_decide (r.1.1 = expIdenties) && bool_decide (r.1.2 = expAuth).

End Server.

(** ** Issuance *)

Module Issuance.

Import Options.

(** Modelled from the spec: the signing-request resource of section 3,
    with the raw payload, the reference to the signing authority, the
    requested validity and the caller's identity string. *)
Record ExternalSigningRequest (Payload : Type) : Type := mkExternalSigningRequest
  { esr_Namespace : string;
    esr_Request : Payload;
    esr_IssuerRef : ObjectReference;
    esr_Duration : Duration;
    esr_Identities : string }.

Arguments mkExternalSigningRequest {Payload} _ _ _ _ _.
Arguments esr_Duration {Payload} _.

(** How an issuance call ends when it does not return certificates. *)
Inductive IssueError : Type :=
  | AuthorizationError (identities : string)
  | IssuanceError (message : string).

(** Modelled from the spec: the signing-request store of section 6 over a
    store of type [St]: creation, the wait for readiness, terminal failure
    or timeout (which yields the certificate chain and the CA certificate,
    or a message), and deletion. *)
Record SigningStore (Payload St : Type) : Type := mkSigningStore
  { sr_Create : ExternalSigningRequest Payload → St → option string * St;
    sr_Await : ExternalSigningRequest Payload → St → (string + string * string) * St;
    sr_Delete : ExternalSigningRequest Payload → St → option string * St }.

Arguments sr_Create {Payload St} _ _ _.
Arguments sr_Await {Payload St} _ _ _.
Arguments sr_Delete {Payload St} _ _ _.

(** Modelled from the spec: step 2 of section 4.3, and the help text of the
    flag in [options.go]: the maximum overrides the requested duration when
    that one is larger. *)
Definition clamp_duration (o : CertManagerOptions) (requested : Duration) : Duration :=
  if (MaximumClientCertificateDuration o <? requested)%Z
  then MaximumClientCertificateDuration o
  else requested.

(** Modelled from the spec: step 3 of section 4.3. *)
Definition build_request {Payload} (o : CertManagerOptions) (identities : string)
    (payload : Payload) (requested : Duration) : ExternalSigningRequest Payload :=
  mkExternalSigningRequest (Namespace o) payload (IssuerRef o)
    (clamp_duration o requested) identities.

(** Modelled from the spec: the Issuance Orchestrator is not among the
    sources.  Section 4.3, steps 1 to 6, with the Request Authorizer as a
    parameter.  A request that could not be created is reported as an
    issuance failure; an error of the deletion is dropped. *)
Definition issue {Payload St : Type} (o : CertManagerOptions)
    (authorize : Payload → string * bool) (sr : SigningStore Payload St)
    (payload : Payload) (requested : Duration) (s : St)
  : (IssueError + string * string) * St :=
  let '(identities, ok) := authorize payload in
  if negb ok then (inl (AuthorizationError identities), s)
  else
    let req := build_request o identities payload requested in
    match sr_Create sr req s with
    | (Some msg, s1) => (inl (IssuanceError msg), s1)
    | (None, s1) =>
        let '(outcome, s2) := sr_Await sr req s1 in
        let s3 := if PreserveCRs o then s2 else (sr_Delete sr req s2).2 in
        match outcome with
        | inl msg => (inl (IssuanceError msg), s3)
        | inr certs => (inr certs, s3)
        end
    end.

(** A signing store that issues at once what is asked of it; its state is
    the list of requests it holds. *)
Definition echo_store : SigningStore string (list (ExternalSigningRequest string)) :=
  {| sr_Create := λ req s, (None, req :: s);
     sr_Await := λ req s, (inr ("chain", "ca"), s);
     sr_Delete := λ req s, (None, tail s) |}.

End Issuance.

(** ** Fixtures for the controller *)

Module Fixtures.

Definition name : string := "istio-ca-root-cert".

Definition pem : list byte := list_byte_of_string "-----BEGIN CERTIFICATE-----".

Definition getter : V2.caGetter := λ _, pem.

Definition enforcer_v2 : V2.enforcer Fake.Cluster :=
  V2.mkEnforcer Fake.Cluster Fake.client getter name.

Definition enforcer_v1 (desired : gomap) : V1.enforcer Fake.Cluster :=
  V1.mkEnforcer Fake.Cluster Fake.client desired name.

(** A cluster with one live and one terminating namespace and no config
    map. *)
Definition bare : Fake.Cluster :=
  Fake.mkCluster {[ "default" := NamespaceActive; "old" := NamespaceTerminating ]} ∅.

(** The same cluster once the config map of [default] is as desired. *)
Definition steady : Fake.Cluster :=
  Fake.mkCluster (Fake.namespaces bare)
    {[ ("default", name) :=
         (Some {[ V2.IstioConfigLabelKey := "true" ]}, rootCAConfigData getter) ]}.

(** The same cluster with a config map that holds a stale certificate, an
    entry of somebody else and no label. *)
Definition drifted : Fake.Cluster :=
  Fake.mkCluster (Fake.namespaces bare)
    {[ ("default", name) :=
         (None, Some {[ "root-cert.pem" := "stale"; "other" := "kept" ]}) ]}.

Definition at_default : Request := mkRequest (mkNamespacedName "" "default").
Definition at_old : Request := mkRequest (mkNamespacedName "" "old").
Definition at_gone : Request := mkRequest (mkNamespacedName "" "gone").
Definition cm_at_default : Request := mkRequest (mkNamespacedName "default" name).

End Fixtures.

(** ** Vocabulary of the properties *)

(** A call that reads, creates or updates. *)
Definition get_create_update (o : Op) : Prop := is_delete o = false.

(** [obj] is [cm] with the desired entries and the marker label written
    over it: same name and namespace, every desired entry present, every
    other data entry and every other label as in [cm]. *)
Record merge_of (desired : gomap) (cm obj : ConfigMap) : Prop := mkMergeOf
  { merge_name : cm_Name obj = cm_Name cm;
    merge_namespace : cm_Namespace obj = cm_Namespace cm;
    merge_desired : ∀ k v,
      go_lookup desired k = Some v → go_lookup (cm_Data obj) k = Some v;
    merge_unrelated : ∀ k,
      go_lookup desired k = None →
      go_lookup (cm_Data obj) k = go_lookup (cm_Data cm) k;
    merge_marker : go_lookup (cm_Labels obj) V1.IstioConfigLabelKey = Some "true";
    merge_labels : ∀ l,
      l ≠ V1.IstioConfigLabelKey →
      go_lookup (cm_Labels obj) l = go_lookup (cm_Labels cm) l }.

(** A client whose every call fails with a server error. *)
Definition unavailable : error := StatusError "ServiceUnavailable" "try again".

Definition broken_client : Client Fake.Cluster :=
  mkClient Fake.Cluster
    (λ _ _, inl unavailable) (λ _ _, inl unavailable)
    (λ _ s, (Some unavailable, s)) (λ _ s, (Some unavailable, s))
    (λ _ s, (Some unavailable, s)).

(** The outcome of a reconciliation that did nothing beyond reading the
    namespace. *)
Definition ignored {St} (req : Request) (s : St)
  : Result * option error * St * list Op :=
  (Result_zero, None, s, [OpGetNamespace (req_NamespacedName req)]).

(** The outcome of a reconciliation that read the namespace and then ran
    the enforcer, whose run is [r]. *)
Definition enforced {St} (req : Request) (r : option error * St * list Op)
  : Result * option error * St * list Op :=
  (Result_zero, result r, store r, OpGetNamespace (req_NamespacedName req) :: calls r).

(** The outcome of a reconciliation that stopped on a failed read of the
    namespace. *)
Definition read_failed {St} (req : Request) (err : error) (s : St)
  : Result * option error * St * list Op :=
  (Result_zero, Some (FailedToGet (req_NamespacedName req) err), s,
   [OpGetNamespace (req_NamespacedName req)]).

(** [converge] finds no object under the name and creates the fresh one, in
    one write. *)
Definition creates_when_absent {St} (c : Client St)
    (converge : string → M St (option error)) (name : string) (desired : gomap)
    (namespace : string) (s : St) : Prop :=
  ∀ err,
    client_GetConfigMap c (mkNamespacedName namespace name) s = inl err →
    IsNotFound err = true →
    calls (converge namespace s) =
    [OpGetConfigMap (mkNamespacedName namespace name);
     OpCreate (fresh_configmap name namespace desired)].

(** [converge] run twice in a row, the first run returning no error: the
    first run writes at most once, and not at all exactly when it found the
    object converged; the second run reads, writes nothing and leaves the
    store as it found it. *)
Definition second_run_is_quiet {St} (c : Client St)
    (converge : string → M St (option error)) (name : string) (desired : gomap)
    (namespace : string) (s : St) : Prop :=
  let key := mkNamespacedName namespace name in
  let first := converge namespace s in
  let second := converge namespace (store first) in
  result first = None →
  count_writes (calls first) ≤ 1 ∧
  (count_writes (calls first) = 0 ↔
   ∃ cm, client_GetConfigMap c key s = inr cm ∧ converged desired cm) ∧
  second = (None, store first, [OpGetConfigMap key]) ∧
  count_writes (calls first ++ calls second) = count_writes (calls first).

(** The calls of two runs of [converge] in a row. *)
Definition calls_of_two_runs {St} (converge : string → M St (option error))
    (namespace : string) (s : St) : list Op :=
  let first := converge namespace s in
  calls first ++ calls (converge namespace (store first)).

(** What the enforcer does to an object [cm] that exists: it creates
    nothing, what it updates is a merge of the desired state into [cm], and
    after a run without error a store that reads back holds such a merge. *)
Definition merges_into {St} (c : Client St)
    (converge : string → M St (option error)) (name : string) (desired : gomap)
    (namespace : string) (s : St) (cm : ConfigMap) : Prop :=
  let r := converge namespace s in
  (∀ obj, OpCreate obj ∉ calls r) ∧
  (∀ obj, OpUpdate obj ∈ calls r → merge_of desired cm obj) ∧
  (ReadsBack c → result r = None →
   ∃ cm', client_GetConfigMap c (mkNamespacedName namespace name) (store r) = inr cm'
          ∧ merge_of desired cm cm').

(** A collection of identities as a set. *)
Definition identity_set (l : list string) : gset string := list_to_set l.

(** The identities that a list of URIs names. *)
Definition uri_strings (b : list Server.URL) : list string := Server.URL_String <$> b.

(** ** The rest of the controller *)

(** The loop [for k, v := range e.data] when Go hands out the entries in
    the order [entries]; Go leaves that order unspecified. *)
Definition range_entries (entries : list (string * string)) (cmData : gomap)
  : gomap * bool :=
  foldl (λ acc kv, V1.range_step kv.1 kv.2 acc) (cmData, false) entries.

(** The object that a client call names. *)
Definition op_key (o : Op) : NamespacedName :=
  match o with
  | OpGetNamespace key | OpGetConfigMap key => key
  | OpCreate obj | OpUpdate obj | OpDelete obj => cm_key obj
  end.

(** The reconcilers as the constructors wire them: both hold the client of
    the manager and the one enforcer, and config-map events pass a filter on
    the name.  The set-up of the manager itself (scheme, leader election,
    readiness check) is left to controller-runtime. *)
Module Wiring.

Record V1_controllers (St : Type) : Type := mkV1
  { v1_namespace : V1.namespace St;
    v1_configmap : V1.configmap St;
    v1_filter : ConfigMap → bool }.

Arguments v1_namespace {St} _.
Arguments v1_configmap {St} _.
Arguments v1_filter {St} _.

Record V2_controllers (St : Type) : Type := mkV2
  { v2_namespace : V2.namespace St;
    v2_configmap : V2.configmap St;
    v2_filter : ConfigMap → bool }.

Arguments v2_namespace {St} _.
Arguments v2_configmap {St} _.
Arguments v2_filter {St} _.

(** [NewCARootController] of the first revision, from the client of the
    manager, [opts.RootCAConfigMapName] and [data]. *)
Definition NewCARootController {St} (mgr_client : Client St)
    (RootCAConfigMapName : string) (data : gomap) : V1_controllers St :=
  let enforcer := V1.mkEnforcer St mgr_client data RootCAConfigMapName in
  {| v1_namespace := V1.mkNamespaceCtl St mgr_client enforcer;
     v1_configmap := V1.mkConfigmapCtl St mgr_client enforcer;
     v1_filter := λ obj,
       if decide (cm_Name obj ≠ RootCAConfigMapName) then false else true |}.

(** [AddCARootController] of the second revision. *)
Definition AddCARootController {St} (mgr_client : Client St)
    (rootCA : V2.caGetter) (configMapName : string) : V2_controllers St :=
  let enforcer := V2.mkEnforcer St mgr_client rootCA configMapName in
  {| v2_namespace := V2.mkNamespaceCtl St mgr_client enforcer;
     v2_configmap := V2.mkConfigmapCtl St mgr_client enforcer;
     v2_filter := λ obj,
       if decide (cm_Name obj ≠ configMapName) then false else true |}.

(** The request that controller-runtime enqueues for an event on [obj]:
    its namespace and name. *)
Definition request_for (obj : ConfigMap) : Request := mkRequest (cm_key obj).

(** The request of an event on the namespace called [name]; namespaces
    have no namespace of their own. *)
Definition namespace_request (name : string) : Request :=
  mkRequest (mkNamespacedName "" name).

End Wiring.

(** Where an error [err] returned by a run [r] of the enforcer from the
    store [s] comes from: a failed read, reported with the key and without
    any write, or the one create or update of the run, whose error is
    returned as it is. *)
Definition error_origin {St} (c : Client St) (key : NamespacedName) (s : St)
    (r : option error * St * list Op) (err : error) : Prop :=
  (∃ cause, client_GetConfigMap c key s = inl cause ∧ IsNotFound cause = false
            ∧ err = FailedToGet key cause
            ∧ calls r = [OpGetConfigMap key] ∧ store r = s) ∨
  (∃ obj, calls r = [OpGetConfigMap key; OpCreate obj]
          ∧ client_Create c obj s = (Some err, store r)) ∨
  (∃ obj, calls r = [OpGetConfigMap key; OpUpdate obj]
          ∧ client_Update c obj s = (Some err, store r)).

(** The stored object with nothing but the marker label set. *)
Definition relabelled (cm : ConfigMap) : ConfigMap :=
  {| cm_Name := cm_Name cm;
     cm_Namespace := cm_Namespace cm;
     cm_Labels := go_store (cm_Labels cm) V1.IstioConfigLabelKey "true";
     cm_Data := cm_Data cm |}.
(** ** Go maps *)

Section GoMaps.

Lemma go_lookup_store_eq (m : gomap) (k v : string) :
  go_lookup (go_store m k v) k = Some v.
Proof. destruct m; simpl; apply lookup_insert_eq. Qed.

Lemma go_lookup_store_ne (m : gomap) (k k' v : string) :
  k ≠ k' → go_lookup (go_store m k v) k' = go_lookup m k'.
Proof.
  intros Hne. destruct m; simpl.
  - by rewrite lookup_insert_ne.
  - by rewrite lookup_insert_ne, lookup_empty.
Qed.

Lemma go_lookup_store (m : gomap) (k k' v : string) :
  go_lookup (go_store m k v) k' =
  if decide (k = k') then Some v else go_lookup m k'.
Proof.
  case_decide as Hk.
  - subst. apply go_lookup_store_eq.
  - by apply go_lookup_store_ne.
Qed.

End GoMaps.

(** ** The loop over the desired data *)

Section RangeData.

Lemma range_inv_start (cd : gomap) : range_inv cd ∅ (cd, false).
Proof.
  split; simpl.
  - intros k. by rewrite lookup_empty.
  - done.
  - split; [done|]. intros (k & v & Hk & _). by rewrite lookup_empty in Hk.
Qed.

Lemma range_inv_step (cd : gomap) (m : gmap string string) (r : gomap * bool)
    (i x : string) :
  m !! i = None → range_inv cd m r → range_inv cd (<[i:=x]> m) (V1.range_step i x r).
Proof.
  intros Hi [Hlook Hclean Hdirty].
  assert (Hri : go_lookup r.1 i = go_lookup cd i).
  { by rewrite Hlook, Hi. }
  assert (Hkeep : go_lookup cd i = Some x →
            range_inv cd (<[i:=x]> m) r).
  { intros Hx. split.
    - intros k. rewrite lookup_insert. case_decide as Hk.
      + subst k. by rewrite Hri.
      + apply Hlook.
    - done.
    - rewrite Hdirty. split; intros (k & v & Hk & Hne).
      + exists k, v. split; [|done].
        rewrite lookup_insert_ne; [done|]. intros ->. by rewrite Hi in Hk.
      + exists k, v. split; [|done].
        rewrite lookup_insert in Hk. case_decide as Hik; [|done].
        simplify_eq. }
  assert (Hput : go_lookup cd i ≠ Some x →
            range_inv cd (<[i:=x]> m) (go_store r.1 i x, true)).
  { intros Hx. split; simpl.
    - intros k. rewrite go_lookup_store, lookup_insert.
      case_decide; [done|]. apply Hlook.
    - done.
    - split; [|done]. intros _. exists i, x. by rewrite lookup_insert_eq. }
  unfold V1.range_step. rewrite Hri.
  destruct (go_lookup cd i) as [kv|] eqn:Hcd.
  - case_decide as Hv.
    + subst kv. by apply Hkeep.
    + apply Hput. intros [= ->]. done.
  - by apply Hput.
Qed.

Lemma range_data_inv (d : gmap string string) (cd : gomap) :
  range_inv cd d (V1.range_data (Some d) cd).
Proof.
  unfold V1.range_data.
  apply (map_fold_weak_ind (λ r m, range_inv cd m r)).
  - apply range_inv_start.
  - intros i x m r Hi IH. by apply range_inv_step.
Qed.

(** The loop leaves [notMatch] unset exactly when every desired entry is
    stored already, and then it has not touched the data. *)
Lemma range_data_present (desired cd : gomap) :
  data_present desired cd → V1.range_data desired cd = (cd, false).
Proof.
  intros Hp. destruct desired as [d|]; [|done].
  pose proof (range_data_inv d cd) as [Hlook Hclean Hdirty].
  destruct (V1.range_data (Some d) cd) as [cd' [|]] eqn:Hr; simpl in *.
  - destruct Hdirty as [Hd _]. destruct (Hd eq_refl) as (k & v & Hk & Hne).
    exfalso. apply Hne. by apply Hp.
  - by rewrite Hclean.
Qed.

Lemma range_data_clean (desired cd cd' : gomap) :
  V1.range_data desired cd = (cd', false) → cd' = cd ∧ data_present desired cd.
Proof.
  destruct desired as [d|]; simpl.
  - intros Hr. pose proof (range_data_inv d cd) as [Hlook Hclean Hdirty].
    unfold V1.range_data in *. rewrite Hr in *. simpl in *.
    split; [by apply Hclean|].
    intros k v Hk.
    destruct (decide (go_lookup cd k = Some v)) as [|Hne]; [done|].
    assert (false = true) as [=]. apply Hdirty. by exists k, v.
  - intros [= <-]. split; [done|]. intros k v [=].
Qed.

(** Whatever the loop did, the data it leaves holds every desired entry and
    every other entry as it was. *)
Lemma range_data_lookup (desired cd : gomap) (k : string) :
  go_lookup (V1.range_data desired cd).1 k =
  match go_lookup desired k with
  | Some v => Some v
  | None => go_lookup cd k
  end.
Proof.
  destruct desired as [d|]; [|done].
  apply (inv_lookup _ _ _ (range_data_inv d cd)).
Qed.

Lemma range_data_result_present (desired cd : gomap) :
  data_present desired (V1.range_data desired cd).1.
Proof. intros k v Hk. by rewrite range_data_lookup, Hk. Qed.

(** With a single desired entry the loop is the test of the second
    revision. *)
Lemma range_data_singleton (k v : string) (cd : gomap) :
  V1.range_data (Some {[ k := v ]}) cd =
  match go_lookup cd k with
  | Some kv => if decide (kv = v) then (cd, false) else (go_store cd k v, true)
  | None => (go_store cd k v, true)
  end.
Proof.
  unfold V1.range_data. rewrite map_fold_singleton. unfold V1.range_step; simpl.
  destruct (go_lookup cd k) as [kv|]; [|done].
  repeat case_decide; congruence.
Qed.

Lemma label_differs_false (labels : gomap) :
  V1.label_differs labels = false ↔
  go_lookup labels V1.IstioConfigLabelKey = Some "true".
Proof.
  unfold V1.label_differs.
  destruct (go_lookup labels V1.IstioConfigLabelKey) as [val|]; [|done].
  case_bool_decide; simpl; split; congruence.
Qed.

End RangeData.

(** ** The enforcer, case by case *)

Section Enforcer.

Context {St : Type}.
Implicit Types (e : V1.enforcer St) (s : St) (cm : ConfigMap).

Lemma needs_update_false (desired : gomap) cm :
  needs_update desired cm = false ↔ converged desired cm.
Proof.
  unfold needs_update, converged. rewrite orb_false_iff, label_differs_false.
  split; intros [H1 H2].
  - split; [|done].
    destruct (V1.range_data desired (cm_Data cm)) as [cd' nm] eqn:Hr.
    simpl in H2. subst nm. by apply range_data_clean in Hr as [_ ?].
  - split; [done|]. by rewrite range_data_present.
Qed.

Lemma merged_converged (desired : gomap) cm : converged desired (merged desired cm).
Proof.
  split; simpl.
  - apply range_data_result_present.
  - apply go_lookup_store_eq.
Qed.

Lemma fresh_converged (name namespace : string) (desired : gomap) :
  converged desired (fresh_configmap name namespace desired).
Proof. split; simpl; [by intros k v Hk|]. apply lookup_singleton_eq. Qed.

Lemma configmap_absent e namespace s err :
  client_GetConfigMap (V1.client e) (key_of e namespace) s = inl err →
  IsNotFound err = true →
  V1.enforcer_configmap e namespace s =
  let obj := fresh_configmap (V1.configMapName e) namespace (V1.data e) in
  let r := client_Create (V1.client e) obj s in
  (r.1, r.2, [OpGetConfigMap (key_of e namespace); OpCreate obj]).
Proof.
  intros Hget Hnf. unfold V1.enforcer_configmap, mbind, M_bind, Get_ConfigMap.
  fold (key_of e namespace). rewrite Hget, Hnf. unfold Create, fresh_configmap.
  simpl. by destruct (client_Create _ _ _).
Qed.

Lemma configmap_read_error e namespace s err :
  client_GetConfigMap (V1.client e) (key_of e namespace) s = inl err →
  IsNotFound err = false →
  V1.enforcer_configmap e namespace s =
  (Some (FailedToGet (key_of e namespace) err), s, [OpGetConfigMap (key_of e namespace)]).
Proof.
  intros Hget Hnf. unfold V1.enforcer_configmap, mbind, M_bind, Get_ConfigMap.
  fold (key_of e namespace). by rewrite Hget, Hnf.
Qed.

Lemma configmap_present e namespace s cm :
  client_GetConfigMap (V1.client e) (key_of e namespace) s = inr cm →
  V1.enforcer_configmap e namespace s =
  if needs_update (V1.data e) cm then
    let r := client_Update (V1.client e) (merged (V1.data e) cm) s in
    (r.1, r.2, [OpGetConfigMap (key_of e namespace); OpUpdate (merged (V1.data e) cm)])
  else (None, s, [OpGetConfigMap (key_of e namespace)]).
Proof.
  intros Hget. unfold V1.enforcer_configmap, mbind, M_bind, Get_ConfigMap.
  fold (key_of e namespace). rewrite Hget. unfold needs_update, merged.
  destruct (V1.range_data (V1.data e) (cm_Data cm)) as [cd' nm]; simpl.
  destruct (V1.label_differs (cm_Labels cm)), nm; simpl; try done;
    unfold Update; by destruct (client_Update (V1.client e) _ s).
Qed.

(** The second revision is the first one run on the one-entry data map. *)
Lemma configmap_V2_as_V1 (e2 : V2.enforcer St) (namespace : string) s :
  V2.enforcer_configmap e2 namespace s =
  V1.enforcer_configmap (as_V1 e2) namespace s.
Proof.
  unfold V2.enforcer_configmap, V1.enforcer_configmap, as_V1, rootCAConfigData.
  unfold mbind, M_bind, Get_ConfigMap. cbn [V1.client V1.data V1.configMapName].
  destruct (client_GetConfigMap _ _ _) as [err|cm]; [done|].
  rewrite range_data_singleton.
  change V2.label_differs with V1.label_differs.
  change V2.IstioConfigLabelKey with V1.IstioConfigLabelKey.
  destruct (go_lookup (cm_Data cm) "root-cert.pem") as [kv|]; [|done].
  by case_decide.
Qed.

End Enforcer.

(** ** The in-memory cluster reads back what was written *)

Section FakeLaws.

Lemma fake_get_put (obj : ConfigMap) (s : Fake.Cluster) :
  Fake.GetConfigMap (cm_key obj) (Fake.put obj s) = inr obj.
Proof.
  unfold Fake.GetConfigMap, Fake.put; simpl.
  rewrite lookup_insert_eq. by destruct obj.
Qed.

Lemma fake_reads_back : ReadsBack Fake.client.
Proof.
  split; simpl.
  - intros key s cm. unfold Fake.GetConfigMap.
    destruct (Fake.configmaps s !! Fake.slot key) as [[labels data]|]; [|done].
    intros [= <-]. by destruct key.
  - intros obj s s'. unfold Fake.CreateConfigMap.
    destruct (Fake.configmaps s !! _); [done|].
    intros [= <-]. apply fake_get_put.
  - intros obj s s'. unfold Fake.UpdateConfigMap.
    destruct (Fake.configmaps s !! _); [|done].
    intros [= <-]. apply fake_get_put.
Qed.

End FakeLaws.

(** ** Running the enforcer twice *)

Section Twice.

Context {St : Type} (c : Client St) (laws : ReadsBack c).
Implicit Types (e : V1.enforcer St) (s : St).

(** After a run that returned no error, the object under the key is there
    and converged. *)
Lemma configmap_leaves_converged e namespace s :
  V1.client e = c →
  result (V1.enforcer_configmap e namespace s) = None →
  ∃ cm, client_GetConfigMap c (key_of e namespace)
          (store (V1.enforcer_configmap e namespace s)) = inr cm
        ∧ converged (V1.data e) cm.
Proof using laws.
  intros Hc Hok.
  destruct (client_GetConfigMap c (key_of e namespace) s) as [err|cm] eqn:Hget;
    rewrite <-Hc in Hget.
  - destruct (IsNotFound err) eqn:Hnf.
    + rewrite (configmap_absent _ _ _ _ Hget Hnf) in *. cbn in Hok |- *.
      destruct (client_Create _ _ _) as [er s1] eqn:Hcreate.
      cbn in Hok. subst er. rewrite Hc in Hcreate.
      apply (get_created _ laws) in Hcreate.
      eexists. split; [exact Hcreate|]. apply fresh_converged.
    + by rewrite (configmap_read_error _ _ _ _ Hget Hnf) in Hok.
  - rewrite (configmap_present _ _ _ _ Hget) in *.
    destruct (needs_update (V1.data e) cm) eqn:Hup.
    + cbn in Hok |- *.
      destruct (client_Update _ _ _) as [er s1] eqn:Hupdate.
      cbn in Hok. subst er. rewrite Hc in Hupdate, Hget.
      apply (get_updated _ laws) in Hupdate.
      apply (get_key _ laws) in Hget.
      change (cm_key (merged (V1.data e) cm)) with (cm_key cm) in Hupdate.
      rewrite Hget in Hupdate.
      eexists. split; [exact Hupdate|]. apply merged_converged.
    + cbn. exists cm. rewrite <-Hc. split; [done|]. by apply needs_update_false.
Qed.

(** On a converged object the enforcer reads and does nothing else. *)
Lemma configmap_on_converged e namespace s cm :
  client_GetConfigMap (V1.client e) (key_of e namespace) s = inr cm →
  converged (V1.data e) cm →
  V1.enforcer_configmap e namespace s =
  (None, s, [OpGetConfigMap (key_of e namespace)]).
Proof.
  intros Hget Hconv. rewrite (configmap_present _ _ _ _ Hget).
  apply needs_update_false in Hconv. by rewrite Hconv.
Qed.

Lemma configmap_second_run e namespace s :
  V1.client e = c →
  result (V1.enforcer_configmap e namespace s) = None →
  V1.enforcer_configmap e namespace (store (V1.enforcer_configmap e namespace s)) =
  (None, store (V1.enforcer_configmap e namespace s),
   [OpGetConfigMap (key_of e namespace)]).
Proof using laws.
  intros Hc Hok.
  destruct (configmap_leaves_converged e namespace s Hc Hok) as (cm & Hget & Hconv).
  rewrite <-Hc in Hget. by apply (configmap_on_converged _ _ _ cm).
Qed.

End Twice.

Section Writes.

Context {St : Type}.
Implicit Types (e : V1.enforcer St) (s : St).

(** A run writes at most once. *)
Lemma configmap_writes_le_1 e namespace s :
  count_writes (calls (V1.enforcer_configmap e namespace s)) ≤ 1.
Proof.
  destruct (client_GetConfigMap (V1.client e) (key_of e namespace) s)
    as [err|cm] eqn:Hget.
  - destruct (IsNotFound err) eqn:Hnf.
    + by rewrite (configmap_absent _ _ _ _ Hget Hnf).
    + rewrite (configmap_read_error _ _ _ _ Hget Hnf). cbn. lia.
  - rewrite (configmap_present _ _ _ _ Hget).
    destruct (needs_update (V1.data e) cm); cbn; lia.
Qed.

(** A run that returned no error wrote nothing exactly when it found the
    object converged. *)
Lemma configmap_no_write_iff e namespace s :
  result (V1.enforcer_configmap e namespace s) = None →
  count_writes (calls (V1.enforcer_configmap e namespace s)) = 0 ↔
  ∃ cm, client_GetConfigMap (V1.client e) (key_of e namespace) s = inr cm
        ∧ converged (V1.data e) cm.
Proof.
  intros Hok.
  destruct (client_GetConfigMap (V1.client e) (key_of e namespace) s)
    as [err|cm] eqn:Hget.
  - destruct (IsNotFound err) eqn:Hnf.
    + rewrite (configmap_absent _ _ _ _ Hget Hnf). cbn.
      split; [done|]. by intros (cm & [=] & _).
    + by rewrite (configmap_read_error _ _ _ _ Hget Hnf) in Hok.
  - rewrite (configmap_present _ _ _ _ Hget).
    destruct (needs_update (V1.data e) cm) eqn:Hup; cbn.
    + split; [done|]. intros (cm' & [= <-] & Hconv).
      apply needs_update_false in Hconv. congruence.
    + split; [|done]. intros _. exists cm. split; [done|].
      by apply needs_update_false.
Qed.

End Writes.

(** ** The calls that a run makes *)

Section Calls.

Context {St : Type}.

(** A run of the enforcer reads once and then creates, updates or stops. *)
Lemma configmap_calls (e : V1.enforcer St) (namespace : string) (s : St) :
  ∃ rest, calls (V1.enforcer_configmap e namespace s)
          = OpGetConfigMap (key_of e namespace) :: rest
          ∧ (rest = [] ∨ ∃ obj, rest = [OpCreate obj] ∨ rest = [OpUpdate obj]).
Proof.
  destruct (client_GetConfigMap (V1.client e) (key_of e namespace) s)
    as [err|cm] eqn:Hget.
  - destruct (IsNotFound err) eqn:Hnf.
    + rewrite (configmap_absent _ _ _ _ Hget Hnf). cbn. eauto 6.
    + rewrite (configmap_read_error _ _ _ _ Hget Hnf). cbn. eauto.
  - rewrite (configmap_present _ _ _ _ Hget).
    destruct (needs_update (V1.data e) cm); cbn; eauto 6.
Qed.

Lemma configmap_calls_allowed (e : V1.enforcer St) (namespace : string) (s : St) :
  Forall get_create_update (calls (V1.enforcer_configmap e namespace s)).
Proof.
  destruct (configmap_calls e namespace s) as (rest & -> & [->|(obj & [->| ->])]);
    repeat constructor.
Qed.

Lemma V1_namespace_Reconcile_eq (n : V1.namespace St) (req : Request) (s : St) :
  V1.namespace_Reconcile n req s =
  match client_GetNamespace (V1.namespace_client n) (req_NamespacedName req) s with
  | inl err =>
      if IsNotFound err then ignored req s
      else (Result_zero, Some (FailedToGet (req_NamespacedName req) err), s,
            [OpGetNamespace (req_NamespacedName req)])
  | inr ns =>
      if bool_decide (ns_Phase ns = NamespaceTerminating) then ignored req s
      else enforced req (V1.enforcer_configmap (V1.namespace_enforcer n) (req_Name req) s)
  end.
Proof.
  unfold V1.namespace_Reconcile, mbind, M_bind, Get_Namespace, ignored, enforced.
  destruct (client_GetNamespace _ _ _) as [err|ns].
  - by destruct (IsNotFound err).
  - case_bool_decide; [done|].
    destruct (V1.enforcer_configmap _ _ _) as [[er s1] t1]. simpl.
    unfold result, store, calls. simpl. by rewrite app_nil_r.
Qed.

Lemma V2_namespace_Reconcile_eq (n : V2.namespace St) (req : Request) (s : St) :
  V2.namespace_Reconcile n req s =
  match client_GetNamespace (V2.namespace_client n) (req_NamespacedName req) s with
  | inl err =>
      if IsNotFound err then ignored req s
      else (Result_zero, Some (FailedToGet (req_NamespacedName req) err), s,
            [OpGetNamespace (req_NamespacedName req)])
  | inr ns =>
      if bool_decide (ns_Phase ns = NamespaceTerminating) then ignored req s
      else enforced req (V2.enforcer_configmap (V2.namespace_enforcer n) (req_Name req) s)
  end.
Proof.
  unfold V2.namespace_Reconcile, mbind, M_bind, Get_Namespace, ignored, enforced.
  destruct (client_GetNamespace _ _ _) as [err|ns].
  - by destruct (IsNotFound err).
  - case_bool_decide; [done|].
    destruct (V2.enforcer_configmap _ _ _) as [[er s1] t1]. simpl.
    unfold result, store, calls. simpl. by rewrite app_nil_r.
Qed.

Lemma V1_configmap_Reconcile_calls (c : V1.configmap St) (req : Request) (s : St) :
  ∃ rest, calls (V1.configmap_Reconcile c req s)
          = OpGetConfigMap (req_NamespacedName req) :: rest
          ∧ (rest = [] ∨ rest = calls (V1.enforcer_configmap (V1.configmap_enforcer c)
                                         (nn_Namespace (req_NamespacedName req)) s)).
Proof.
  unfold V1.configmap_Reconcile, mbind, M_bind, Get_ConfigMap.
  destruct (client_GetConfigMap _ _ _) as [err|cm].
  - destruct (IsNotFound err); simpl.
    + destruct (V1.enforcer_configmap _ _ _) as [[er s1] t1]. simpl.
      rewrite app_nil_r. eauto.
    + eauto.
  - destruct (V1.enforcer_configmap _ _ _) as [[er s1] t1]. simpl.
    rewrite app_nil_r. eauto.
Qed.

Lemma V2_configmap_Reconcile_calls (c : V2.configmap St) (req : Request) (s : St) :
  calls (V2.configmap_Reconcile c req s) =
  calls (V2.enforcer_configmap (V2.configmap_enforcer c)
           (nn_Namespace (req_NamespacedName req)) s).
Proof.
  unfold V2.configmap_Reconcile, mbind, M_bind.
  destruct (V2.enforcer_configmap _ _ _) as [[er s1] t1]. simpl.
  apply app_nil_r.
Qed.

End Calls.

(** ** What an update sends and what a run leaves *)

Section Merge.

Context {St : Type}.
Implicit Types (e : V1.enforcer St) (s : St) (cm obj : ConfigMap).

Lemma merged_merge_of (desired : gomap) cm : merge_of desired cm (merged desired cm).
Proof.
  split; simpl; try done.
  - intros k v Hk. by rewrite range_data_lookup, Hk.
  - intros k Hk. by rewrite range_data_lookup, Hk.
  - apply go_lookup_store_eq.
  - intros l Hl. by apply go_lookup_store_ne.
Qed.

Lemma converged_merge_of (desired : gomap) cm :
  converged desired cm → merge_of desired cm cm.
Proof. intros [Hdata Hlabel]. by split. Qed.

(** On an object that exists the enforcer creates nothing, and what it
    updates is the merge of the desired state into that object. *)
Lemma configmap_present_calls e namespace s cm :
  client_GetConfigMap (V1.client e) (key_of e namespace) s = inr cm →
  (∀ obj, OpCreate obj ∉ calls (V1.enforcer_configmap e namespace s)) ∧
  (∀ obj, OpUpdate obj ∈ calls (V1.enforcer_configmap e namespace s) →
          obj = merged (V1.data e) cm).
Proof.
  intros Hget. rewrite (configmap_present _ _ _ _ Hget).
  destruct (needs_update (V1.data e) cm); cbn; split; intros obj;
    rewrite !elem_of_cons, elem_of_nil; intros Hin;
    destruct_or?; first [done | congruence].
Qed.

(** After a run without error over an object that existed, a store that
    reads back what was written holds the merge under the same key. *)
Lemma configmap_present_after e namespace s cm :
  ReadsBack (V1.client e) →
  client_GetConfigMap (V1.client e) (key_of e namespace) s = inr cm →
  result (V1.enforcer_configmap e namespace s) = None →
  ∃ cm', client_GetConfigMap (V1.client e) (key_of e namespace)
           (store (V1.enforcer_configmap e namespace s)) = inr cm'
         ∧ merge_of (V1.data e) cm cm'.
Proof.
  intros laws Hget. rewrite (configmap_present _ _ _ _ Hget).
  destruct (needs_update (V1.data e) cm) eqn:Hup; cbn.
  - destruct (client_Update _ _ _) as [er s1] eqn:Hupdate. cbn. intros ->.
    apply (get_updated _ laws) in Hupdate.
    pose proof (get_key _ laws _ _ _ Hget) as Hkey.
    change (cm_key (merged (V1.data e) cm)) with (cm_key cm) in Hupdate.
    rewrite Hkey in Hupdate.
    eexists. split; [exact Hupdate|]. apply merged_merge_of.
  - intros _. exists cm. split; [done|].
    apply converged_merge_of. by apply needs_update_false.
Qed.

End Merge.

(** ** The claims on the controller *)

(** C10: the two revisions of the controller agree on convergence.  For
    every client, store, name and namespace, the enforcer of the first
    revision given the one-entry data map [root-cert.pem] with the bytes of
    the root CA as a string returns the same error, leaves the same store and
    makes the same sequence of get, create and update calls, with the same
    objects, as the enforcer of the second revision whose getter returns those
    bytes. *)
Theorem revisions_agree_on_convergence {St : Type} (c : Client St)
    (rootCA : V2.caGetter) (name namespace : string) (s : St) :
  V1.enforcer_configmap
    (V1.mkEnforcer St c (Some {[ "root-cert.pem" := V2.Sprintf_s (rootCA ()) ]}) name)
    namespace s
  = V2.enforcer_configmap (V2.mkEnforcer St c rootCA name) namespace s.
Proof. symmetry. apply (configmap_V2_as_V1 (V2.mkEnforcer St c rootCA name)). Qed.

(** C9: no run of the enforcer and no run of either reconciler, in either
    revision, deletes: every client call that such a run makes is a get, a
    create or an update. *)
Theorem controller_never_deletes {St : Type} (s : St) (req : Request)
    (namespace : string) :
  (∀ e : V1.enforcer St,
     Forall get_create_update (calls (V1.enforcer_configmap e namespace s))) ∧
  (∀ e : V2.enforcer St,
     Forall get_create_update (calls (V2.enforcer_configmap e namespace s))) ∧
  (∀ c : V1.configmap St,
     Forall get_create_update (calls (V1.configmap_Reconcile c req s))) ∧
  (∀ c : V2.configmap St,
     Forall get_create_update (calls (V2.configmap_Reconcile c req s))) ∧
  (∀ n : V1.namespace St,
     Forall get_create_update (calls (V1.namespace_Reconcile n req s))) ∧
  (∀ n : V2.namespace St,
     Forall get_create_update (calls (V2.namespace_Reconcile n req s))).
Proof.
  assert (Hv2 : ∀ (e : V2.enforcer St) ns,
            Forall get_create_update (calls (V2.enforcer_configmap e ns s))).
  { intros e ns. rewrite configmap_V2_as_V1. apply configmap_calls_allowed. }
  repeat split.
  - intros e. apply configmap_calls_allowed.
  - intros e. apply Hv2.
  - intros c.
    destruct (V1_configmap_Reconcile_calls c req s) as (rest & -> & [->| ->]).
    + by repeat constructor.
    + constructor; [done|]. apply configmap_calls_allowed.
  - intros c. rewrite V2_configmap_Reconcile_calls. apply Hv2.
  - intros n. rewrite V1_namespace_Reconcile_eq.
    destruct (client_GetNamespace _ _ _) as [err|ns].
    + destruct (IsNotFound err); by repeat constructor.
    + case_bool_decide; [by repeat constructor|].
      constructor; [done|]. apply configmap_calls_allowed.
  - intros n. rewrite V2_namespace_Reconcile_eq.
    destruct (client_GetNamespace _ _ _) as [err|ns].
    + destruct (IsNotFound err); by repeat constructor.
    + case_bool_decide; [by repeat constructor|].
      constructor; [done|]. apply Hv2.
Qed.

(** C7: the namespace reconciler, in both revisions.  When the namespace is
    not found, or is found in the terminating phase, it returns no error and
    has made no call but the read of the namespace, so the enforcer was not
    run.  When the namespace is found in any other phase it runs the
    enforcer for that namespace and returns the enforcer's error.  When the
    read fails otherwise, it returns that failure. *)
Theorem namespace_Reconcile_cases {St : Type} (c : Client St)
    (e1 : V1.enforcer St) (e2 : V2.enforcer St) (req : Request) (s : St) :
  let n1 := V1.mkNamespaceCtl St c e1 in
  let n2 := V2.mkNamespaceCtl St c e2 in
  let got := client_GetNamespace c (req_NamespacedName req) s in
  (∀ err, got = inl err → IsNotFound err = true →
     V1.namespace_Reconcile n1 req s = ignored req s ∧
     V2.namespace_Reconcile n2 req s = ignored req s) ∧
  (∀ ns, got = inr ns → ns_Phase ns = NamespaceTerminating →
     V1.namespace_Reconcile n1 req s = ignored req s ∧
     V2.namespace_Reconcile n2 req s = ignored req s) ∧
  (∀ ns, got = inr ns → ns_Phase ns ≠ NamespaceTerminating →
     V1.namespace_Reconcile n1 req s
       = enforced req (V1.enforcer_configmap e1 (req_Name req) s) ∧
     V2.namespace_Reconcile n2 req s
       = enforced req (V2.enforcer_configmap e2 (req_Name req) s)) ∧
  (∀ err, got = inl err → IsNotFound err = false →
     V1.namespace_Reconcile n1 req s = read_failed req err s ∧
     V2.namespace_Reconcile n2 req s = read_failed req err s).
Proof.
  intros n1 n2 got. subst got.
  rewrite V1_namespace_Reconcile_eq, V2_namespace_Reconcile_eq. subst n1 n2.
  cbn [V1.namespace_client V2.namespace_client V1.namespace_enforcer
       V2.namespace_enforcer].
  split; [|split; [|split]].
  - intros err -> Hnf. by rewrite Hnf.
  - intros ns -> Hphase. by case_bool_decide.
  - intros ns -> Hphase. by case_bool_decide.
  - intros err -> Hnf. by rewrite Hnf.
Qed.

Lemma namespace_Reconcile_cases_witness :
  V2.namespace_Reconcile (V2.mkNamespaceCtl _ Fake.client Fixtures.enforcer_v2)
    Fixtures.at_gone Fixtures.bare = ignored Fixtures.at_gone Fixtures.bare ∧
  V1.namespace_Reconcile (V1.mkNamespaceCtl _ Fake.client (Fixtures.enforcer_v1 None))
    Fixtures.at_old Fixtures.bare = ignored Fixtures.at_old Fixtures.bare ∧
  V2.namespace_Reconcile (V2.mkNamespaceCtl _ Fake.client Fixtures.enforcer_v2)
    Fixtures.at_default Fixtures.bare
    = enforced Fixtures.at_default
        (V2.enforcer_configmap Fixtures.enforcer_v2 "default" Fixtures.bare) ∧
  V2.namespace_Reconcile (V2.mkNamespaceCtl _ broken_client Fixtures.enforcer_v2)
    Fixtures.at_default Fixtures.bare
    = read_failed Fixtures.at_default unavailable Fixtures.bare.
Proof.
  pose proof (namespace_Reconcile_cases Fake.client (Fixtures.enforcer_v1 None)
                Fixtures.enforcer_v2 Fixtures.at_gone Fixtures.bare)
    as (Hgone & _).
  pose proof (namespace_Reconcile_cases Fake.client (Fixtures.enforcer_v1 None)
                Fixtures.enforcer_v2 Fixtures.at_old Fixtures.bare)
    as (_ & Hold & _).
  pose proof (namespace_Reconcile_cases Fake.client (Fixtures.enforcer_v1 None)
                Fixtures.enforcer_v2 Fixtures.at_default Fixtures.bare)
    as (_ & _ & Hlive & _).
  pose proof (namespace_Reconcile_cases broken_client (Fixtures.enforcer_v1 None)
                Fixtures.enforcer_v2 Fixtures.at_default Fixtures.bare)
    as (_ & _ & _ & Hfail).
  split; [|split; [|split]].
  - apply (Hgone Fake.not_found); reflexivity.
  - apply (Hold (mkNamespace "old" NamespaceTerminating)); reflexivity.
  - apply (Hlive (mkNamespace "default" NamespaceActive)).
    + reflexivity.
    + vm_compute. congruence.
  - apply (Hfail unavailable); reflexivity.
Defined.

(** C6: convergence keeps what it does not own.  When the config object
    exists, the enforcer of either revision creates nothing, and the object
    it sends in an update, if it sends one, is the stored object with the
    desired entries and the marker label written over it: name and
    namespace, every data entry under a key that is not a desired one and
    every other label are as stored.  After a run without error, a store
    that reads back what was written holds such an object. *)
Theorem converge_preserves_unrelated {St : Type} (c : Client St)
    (name namespace : string) (s : St) (cm : ConfigMap) :
  client_GetConfigMap c (mkNamespacedName namespace name) s = inr cm →
  (∀ desired : gomap,
     merges_into c (V1.enforcer_configmap (V1.mkEnforcer St c desired name))
       name desired namespace s cm) ∧
  (∀ rootCA : V2.caGetter,
     merges_into c (V2.enforcer_configmap (V2.mkEnforcer St c rootCA name))
       name (rootCAConfigData rootCA) namespace s cm).
Proof.
  intros Hget.
  assert (Hv1 : ∀ desired : gomap,
            merges_into c (V1.enforcer_configmap (V1.mkEnforcer St c desired name))
              name desired namespace s cm).
  { intros desired. set (e := V1.mkEnforcer St c desired name).
    destruct (configmap_present_calls e namespace s cm Hget) as [Hcreate Hupdate].
    split; [exact Hcreate|]. split.
    - intros obj Hin. rewrite (Hupdate obj Hin). apply merged_merge_of.
    - intros laws Hok. by apply (configmap_present_after e namespace s cm). }
  split; [exact Hv1|].
  intros rootCA. unfold merges_into.
  rewrite (configmap_V2_as_V1 (V2.mkEnforcer St c rootCA name)).
  apply (Hv1 (rootCAConfigData rootCA)).
Qed.

Lemma converge_preserves_unrelated_witness :
  let r := V2.enforcer_configmap Fixtures.enforcer_v2 "default" Fixtures.drifted in
  result r = None ∧
  ∃ cm', Fake.GetConfigMap (mkNamespacedName "default" Fixtures.name) (store r)
           = inr cm'
         ∧ go_lookup (cm_Data cm') "other" = Some "kept"
         ∧ go_lookup (cm_Data cm') "root-cert.pem"
             = Some "-----BEGIN CERTIFICATE-----".
Proof.
  set (stored := mkConfigMap Fixtures.name "default" None
                   (Some {[ "root-cert.pem" := "stale"; "other" := "kept" ]})).
  pose proof (converge_preserves_unrelated Fake.client Fixtures.name "default"
                Fixtures.drifted stored eq_refl) as [_ Hv2].
  destruct (Hv2 Fixtures.getter) as (_ & _ & Hafter).
  split; [reflexivity|].
  destruct (Hafter fake_reads_back eq_refl) as (cm' & Hget & Hmerge).
  exists cm'. split; [exact Hget|]. split.
  - rewrite (merge_unrelated _ _ _ Hmerge "other"); reflexivity.
  - apply (merge_desired _ _ _ Hmerge). reflexivity.
Defined.

(** C5, as amended: convergence is idempotent.  If the config object is
    absent, the enforcer creates it with the desired data (in the second
    revision the single [root-cert.pem] entry) and the marker label, in one
    write.  Run twice in a row against a store that reads back what was
    written, the first run returning no error, the enforcer writes at most
    once in all: the first run writes once when the object was absent or
    differed and not at all when it already matched, and the second run only
    reads. *)
Theorem converge_idempotent {St : Type} (c : Client St)
    (name namespace : string) (s : St) :
  (∀ desired : gomap,
     creates_when_absent c (V1.enforcer_configmap (V1.mkEnforcer St c desired name))
       name desired namespace s) ∧
  (∀ rootCA : V2.caGetter,
     creates_when_absent c (V2.enforcer_configmap (V2.mkEnforcer St c rootCA name))
       name (rootCAConfigData rootCA) namespace s) ∧
  (ReadsBack c →
   (∀ desired : gomap,
      second_run_is_quiet c (V1.enforcer_configmap (V1.mkEnforcer St c desired name))
        name desired namespace s) ∧
   (∀ rootCA : V2.caGetter,
      second_run_is_quiet c (V2.enforcer_configmap (V2.mkEnforcer St c rootCA name))
        name (rootCAConfigData rootCA) namespace s)).
Proof.
  assert (Hcreate : ∀ desired : gomap,
            creates_when_absent c
              (V1.enforcer_configmap (V1.mkEnforcer St c desired name))
              name desired namespace s).
  { intros desired err Hget Hnf.
    by rewrite (configmap_absent (V1.mkEnforcer St c desired name) _ _ _ Hget Hnf). }
  assert (Hquiet : ReadsBack c → ∀ desired : gomap,
            second_run_is_quiet c
              (V1.enforcer_configmap (V1.mkEnforcer St c desired name))
              name desired namespace s).
  { intros laws desired. set (e := V1.mkEnforcer St c desired name).
    unfold second_run_is_quiet. intros Hok.
    pose proof (configmap_second_run c laws e namespace s eq_refl Hok) as Hsecond.
    split; [apply configmap_writes_le_1|].
    split; [by apply (configmap_no_write_iff e namespace s)|].
    split; [exact Hsecond|].
    rewrite Hsecond. unfold count_writes. rewrite List.filter_app, length_app.
    cbn. lia. }
  split; [exact Hcreate|]. split.
  - intros rootCA. unfold creates_when_absent.
    rewrite (configmap_V2_as_V1 (V2.mkEnforcer St c rootCA name)).
    apply (Hcreate (rootCAConfigData rootCA)).
  - intros laws. split; [by apply Hquiet|].
    intros rootCA. unfold second_run_is_quiet.
    rewrite !(configmap_V2_as_V1 (V2.mkEnforcer St c rootCA name)).
    apply (Hquiet laws (rootCAConfigData rootCA)).
Qed.

Lemma converge_idempotent_witness :
  let first := V2.enforcer_configmap Fixtures.enforcer_v2 "default" Fixtures.bare in
  let second := V2.enforcer_configmap Fixtures.enforcer_v2 "default" (store first) in
  calls first =
    [OpGetConfigMap (mkNamespacedName "default" Fixtures.name);
     OpCreate (fresh_configmap Fixtures.name "default"
                 (rootCAConfigData Fixtures.getter))] ∧
  second = (None, store first,
            [OpGetConfigMap (mkNamespacedName "default" Fixtures.name)]) ∧
  count_writes (calls first ++ calls second) = count_writes (calls first).
Proof.
  pose proof (converge_idempotent Fake.client Fixtures.name "default" Fixtures.bare)
    as (_ & Hcreate & Hquiet).
  destruct (Hquiet fake_reads_back) as [_ Hv2].
  destruct (Hv2 Fixtures.getter eq_refl) as (_ & _ & Hsecond & Hcount).
  split; [|split].
  - apply (Hcreate Fixtures.getter Fake.not_found); reflexivity.
  - exact Hsecond.
  - exact Hcount.
Defined.

(** C5, the counterexample: on a cluster whose config object already
    carries the desired entry and the label, two runs of the enforcer in a
    row return no error and write nothing, so they do not make exactly one
    write. *)
Lemma converge_twice_on_steady_cluster :
  result (V2.enforcer_configmap Fixtures.enforcer_v2 "default" Fixtures.steady) = None ∧
  calls_of_two_runs (V2.enforcer_configmap Fixtures.enforcer_v2) "default"
    Fixtures.steady
  = [OpGetConfigMap (mkNamespacedName "default" Fixtures.name);
     OpGetConfigMap (mkNamespacedName "default" Fixtures.name)] ∧
  count_writes (calls_of_two_runs (V2.enforcer_configmap Fixtures.enforcer_v2)
                  "default" Fixtures.steady) ≠ 1.
Proof. split; [|split]; vm_compute; congruence. Qed.

(** The config-map reconciler puts the object back when it is gone: on the
    cluster without config map, an event for the well-known name ends with
    the object created, in both revisions. *)
Example configmap_Reconcile_recreates :
  calls (V2.configmap_Reconcile
           (V2.mkConfigmapCtl _ Fake.client Fixtures.enforcer_v2)
           Fixtures.cm_at_default Fixtures.bare)
  = [OpGetConfigMap (mkNamespacedName "default" Fixtures.name);
     OpCreate (fresh_configmap Fixtures.name "default"
                 (rootCAConfigData Fixtures.getter))] ∧
  calls (V1.configmap_Reconcile
           (V1.mkConfigmapCtl _ Fake.client
              (Fixtures.enforcer_v1 (rootCAConfigData Fixtures.getter)))
           Fixtures.cm_at_default Fixtures.bare)
  = [OpGetConfigMap (mkNamespacedName "default" Fixtures.name);
     OpGetConfigMap (mkNamespacedName "default" Fixtures.name);
     OpCreate (fresh_configmap Fixtures.name "default"
                 (rootCAConfigData Fixtures.getter))].
Proof. split; by vm_compute. Qed.

(** ** The identity matcher *)

Section IdentityMatcher.

Import Server.

Lemma bool_eq_of_iff (b1 b2 : bool) : (b1 = true ↔ b2 = true) → b1 = b2.
Proof.
  destruct b1, b2; intros [H1 H2]; try done.
  - symmetry. by apply H1.
  - by apply H2.
Qed.

Lemma identity_set_eq (l k : list string) :
  identity_set l = identity_set k ↔ ∀ x, x ∈ l ↔ x ∈ k.
Proof.
  unfold identity_set. rewrite set_eq.
  by setoid_rewrite elem_of_list_to_set.
Qed.

(** The matcher holds exactly when both sides have the same elements. *)
Lemma identitiesMatch_elements (a : list string) (b : list URL) :
  identitiesMatch a b = true ↔ ∀ x, x ∈ a ↔ x ∈ uri_strings b.
Proof.
  unfold identitiesMatch. fold (uri_strings b).
  rewrite andb_true_iff, bool_decide_eq_true.
  rewrite <-Is_true_true, forallb_True, Forall_forall.
  setoid_rewrite bool_decide_spec.
  pose proof (NoDup_remove_dups a) as Hna.
  pose proof (NoDup_remove_dups (uri_strings b)) as Hnb.
  split.
  - intros [Hlen Hsub].
    assert (Hperm : remove_dups a ≡ₚ remove_dups (uri_strings b)).
    { apply submseteq_length_Permutation; [|lia].
      by apply NoDup_submseteq. }
    intros x. by rewrite <-(elem_of_remove_dups a), Hperm, elem_of_remove_dups.
  - intros Heq.
    assert (Hperm : remove_dups a ≡ₚ remove_dups (uri_strings b)).
    { apply NoDup_Permutation; [done..|].
      intros x. by rewrite !elem_of_remove_dups. }
    split; [by rewrite Hperm|].
    intros x Hx. by rewrite <-Hperm.
Qed.

Lemma identitiesMatch_sets (a : list string) (b : list URL) :
  identitiesMatch a b = true ↔ identity_set a = identity_set (uri_strings b).
Proof. by rewrite identitiesMatch_elements, identity_set_eq. Qed.

Lemma uri_strings_mkURL (l : list string) : uri_strings (mkURL <$> l) = l.
Proof.
  unfold uri_strings.
  induction l as [|x l IH]; [done|]. rewrite !fmap_cons. by rewrite IH.
Qed.

Lemma identitiesMatch_ext (a a' : list string) (b b' : list URL) :
  (∀ x, x ∈ a ↔ x ∈ a') →
  (∀ x, x ∈ uri_strings b ↔ x ∈ uri_strings b') →
  identitiesMatch a b = identitiesMatch a' b'.
Proof.
  intros Ha Hb. apply bool_eq_of_iff. rewrite !identitiesMatch_elements.
  split; intros H x.
  - by rewrite <-Ha, <-Hb.
  - by rewrite Ha, Hb.
Qed.

End IdentityMatcher.

(** ** The claims on the signing server *)

(** C2: the identity matcher decides equality of sets.  It is true exactly
    when the strings and the URIs are equal as sets, which then have the
    same size; it is symmetric; permuting either input or repeating an entry
    of either input does not change it; it is true on two empty inputs; and
    it is false when one side is a strict subset of the other. *)
Theorem identitiesMatch_set_equality :
  (∀ a b, Server.identitiesMatch a b = true ↔
          identity_set a = identity_set (uri_strings b)) ∧
  (∀ a b, Server.identitiesMatch a b = true →
          size (identity_set a) = size (identity_set (uri_strings b))) ∧
  (∀ a b : list string,
     Server.identitiesMatch a (Server.mkURL <$> b)
     = Server.identitiesMatch b (Server.mkURL <$> a)) ∧
  (∀ a a' b b', a ≡ₚ a' → b ≡ₚ b' →
     Server.identitiesMatch a b = Server.identitiesMatch a' b') ∧
  (∀ a b x, x ∈ a → Server.identitiesMatch (x :: a) b = Server.identitiesMatch a b) ∧
  (∀ a b u, u ∈ b → Server.identitiesMatch a (u :: b) = Server.identitiesMatch a b) ∧
  Server.identitiesMatch [] [] = true ∧
  (∀ a b, identity_set a ⊂ identity_set (uri_strings b) →
          Server.identitiesMatch a b = false) ∧
  (∀ a b, identity_set (uri_strings b) ⊂ identity_set a →
          Server.identitiesMatch a b = false).
Proof.
  split; [exact identitiesMatch_sets|].
  split; [intros a b Hm; apply identitiesMatch_sets in Hm; by rewrite Hm|].
  split.
  { intros a b. apply bool_eq_of_iff.
    rewrite !identitiesMatch_elements, !uri_strings_mkURL. split; intros H x; by rewrite H. }
  split.
  { intros a a' b b' Ha Hb. apply identitiesMatch_ext.
    - intros x. by rewrite Ha.
    - intros x. unfold uri_strings. by rewrite Hb. }
  split.
  { intros a b x Hx. apply identitiesMatch_ext; [|done].
    intros y. rewrite elem_of_cons. split; [intros [->|]|]; auto. }
  split.
  { intros a b u Hu. apply identitiesMatch_ext; [done|].
    intros y. unfold uri_strings. rewrite fmap_cons, elem_of_cons.
    split; [intros [->|]|]; auto. by apply list_elem_of_fmap_2. }
  split; [done|].
  split.
  - intros a b Hsub. apply not_true_is_false. intros Hm.
    apply identitiesMatch_sets in Hm. rewrite Hm in Hsub.
    destruct Hsub as [_ Hn]. by apply Hn.
  - intros a b Hsub. apply not_true_is_false. intros Hm.
    apply identitiesMatch_sets in Hm. rewrite Hm in Hsub.
    destruct Hsub as [_ Hn]. by apply Hn.
Qed.

Lemma identitiesMatch_set_equality_witness :
  Server.identitiesMatch ["spiffe://foo"; "spiffe://bar"]
    [Server.mkURL "spiffe://bar"; Server.mkURL "spiffe://bar";
     Server.mkURL "spiffe://foo"]
  = Server.identitiesMatch ["spiffe://foo"; "spiffe://bar"]
      [Server.mkURL "spiffe://foo"; Server.mkURL "spiffe://bar"] ∧
  Server.identitiesMatch ["spiffe://bar"]
    [Server.mkURL "spiffe://foo"; Server.mkURL "spiffe://bar"] = false.
Proof.
  destruct identitiesMatch_set_equality
    as (_ & _ & _ & Hperm & _ & Hdup & _ & Hsub & _).
  split.
  - rewrite (Hdup _ _ (Server.mkURL "spiffe://bar")).
    + apply Hperm; [done|]. apply perm_swap.
    + apply list_elem_of_In. simpl. auto.
  - apply Hsub.
    match goal with |- ?P => refine (bool_decide_unpack P _) end.
    by vm_compute.
Defined.

Section Authorizer.

Import Server.

Context {Ctx Payload : Type}.
Implicit Types (auther : Authenticator Ctx)
  (decode : Payload → option CertificateRequest).

Lemma has_extra_names_true (csr : CertificateRequest) :
  DNSNames csr ≠ [] ∨ IPAddresses csr ≠ [] ∨ EmailAddresses csr ≠ []
  ∨ Subject_CommonName csr ≠ "" →
  has_extra_names csr = true.
Proof.
  unfold has_extra_names. rewrite !orb_true_iff, !negb_true_iff.
  rewrite !bool_decide_eq_false. tauto.
Qed.

(** Once the caller is authenticated with some identity, the first result
    is the joined identities whatever happens next. *)
Lemma authRequest_identities auther decode (ctx : Ctx) (icrpem : Payload)
    (caller : Caller) :
  Authenticate auther ctx = inr caller →
  Identities caller ≠ [] →
  (authRequest auther decode ctx icrpem).1.1 = join_identities (Identities caller).
Proof.
  intros Hauth Hids. unfold authRequest. rewrite Hauth.
  destruct (Identities caller) as [|id ids] eqn:Hcaller; [done|].
  destruct (decode icrpem) as [csr|]; [|done].
  destruct (has_extra_names csr); [done|].
  by destruct (identitiesMatch _ _).
Qed.

Lemma has_extra_names_false (csr : CertificateRequest) :
  DNSNames csr = [] → IPAddresses csr = [] → EmailAddresses csr = [] →
  Subject_CommonName csr = "" →
  has_extra_names csr = false.
Proof.
  intros Hd Hi He Hc. unfold has_extra_names. rewrite Hd, Hi, He, Hc. reflexivity.
Qed.

End Authorizer.

(** C1: a signing request whose decoded form has a DNS name, an IP
    address, an email address or a subject common name is not authorized,
    whoever the caller is and whatever its URI identities are, so also when
    they equal the authenticated identities. *)
Theorem authRequest_rejects_extra_names {Ctx Payload : Type}
    (auther : Server.Authenticator Ctx)
    (decode : Payload → option Server.CertificateRequest)
    (ctx : Ctx) (icrpem : Payload) (csr : Server.CertificateRequest) :
  decode icrpem = Some csr →
  Server.DNSNames csr ≠ [] ∨ Server.IPAddresses csr ≠ []
  ∨ Server.EmailAddresses csr ≠ [] ∨ Server.Subject_CommonName csr ≠ "" →
  (Server.authRequest auther decode ctx icrpem).1.2 = false.
Proof.
  intros Hdec Hextra. unfold Server.authRequest.
  destruct (Server.Authenticate auther ctx) as [msg|caller]; [done|].
  destruct (Server.Identities caller) as [|id ids]; [done|].
  rewrite Hdec. by rewrite (has_extra_names_true csr Hextra).
Qed.

Lemma authRequest_rejects_extra_names_witness :
  let ids := ["spiffe://foo"; "spiffe://bar"] in
  let csr := Server.mkCertificateRequest "" ["example.com"; "jetstack.io"] [] []
               (Server.mkURL <$> ids) in
  Server.identitiesMatch ids (Server.URIs csr) = true ∧
  (Server.authRequest (Server.mock (Server.newMockAuthn ids ""))
     Server.decode_fixture () (Server.Encoded csr)).1.2 = false.
Proof.
  split; [reflexivity|].
  eapply (authRequest_rejects_extra_names _ Server.decode_fixture ()).
  - reflexivity.
  - left. simpl. discriminate.
Defined.

(** C3: when the authenticator fails, or succeeds with no identity, the
    authorizer returns the empty string and [false] and has done nothing but
    call the authenticator: the payload was not decoded, and the two
    outcomes are the same. *)
Theorem authRequest_short_circuits {Ctx Payload : Type}
    (auther : Server.Authenticator Ctx)
    (decode : Payload → option Server.CertificateRequest)
    (ctx : Ctx) (icrpem : Payload) :
  (∃ msg, Server.Authenticate auther ctx = inl msg) ∨
  (∃ caller, Server.Authenticate auther ctx = inr caller
             ∧ Server.Identities caller = []) →
  Server.authRequest auther decode ctx icrpem = ("", false, [Server.StepAuthenticate]).
Proof.
  unfold Server.authRequest.
  intros [[msg ->]|(caller & -> & ->)]; reflexivity.
Qed.

Lemma authRequest_short_circuits_witness :
  Server.authRequest (Server.mock (Server.newMockAuthn [] "an error"))
    Server.decode_fixture () (Server.Undecodable "")
  = ("", false, [Server.StepAuthenticate]) ∧
  Server.authRequest (Server.mock (Server.newMockAuthn [] ""))
    Server.decode_fixture ()
    (Server.genCSR [Server.SetCSRIdentities ["spiffe://foo"]])
  = ("", false, [Server.StepAuthenticate]).
Proof.
  split.
  - apply authRequest_short_circuits. left. by exists "an error".
  - apply authRequest_short_circuits. right. by exists (Server.mkCaller []).
Defined.

(** C4: when the authenticator succeeds with at least one identity, the
    first result of the authorizer is the identities joined with commas, in
    the order given, whatever happens next.  A payload that does not decode,
    a decoded request with a DNS name, an IP address, an email address or a
    common name, and a decoded request whose URIs do not match the
    identities each return that string with [false]; a decoded request with
    none of those fields and matching URIs returns it with [true]. *)
Theorem authRequest_returns_identities {Ctx Payload : Type}
    (auther : Server.Authenticator Ctx)
    (decode : Payload → option Server.CertificateRequest)
    (ctx : Ctx) (icrpem : Payload) (caller : Server.Caller) :
  Server.Authenticate auther ctx = inr caller →
  Server.Identities caller ≠ [] →
  let identities := String.concat "," (Server.Identities caller) in
  let returned := (Server.authRequest auther decode ctx icrpem).1 in
  returned.1 = identities ∧
  (decode icrpem = None → returned = (identities, false)) ∧
  (∀ csr, decode icrpem = Some csr →
     Server.DNSNames csr ≠ [] ∨ Server.IPAddresses csr ≠ []
     ∨ Server.EmailAddresses csr ≠ [] ∨ Server.Subject_CommonName csr ≠ "" →
     returned = (identities, false)) ∧
  (∀ csr, decode icrpem = Some csr →
     Server.identitiesMatch (Server.Identities caller) (Server.URIs csr) = false →
     returned = (identities, false)) ∧
  (∀ csr, decode icrpem = Some csr →
     Server.DNSNames csr = [] → Server.IPAddresses csr = [] →
     Server.EmailAddresses csr = [] → Server.Subject_CommonName csr = "" →
     Server.identitiesMatch (Server.Identities caller) (Server.URIs csr) = true →
     returned = (identities, true)).
Proof.
  intros Hauth Hids identities returned.
  split; [by apply authRequest_identities|].
  subst returned identities. unfold Server.authRequest. rewrite Hauth.
  destruct (Server.Identities caller) as [|id ids] eqn:Hcaller; [done|].
  fold (Server.join_identities (id :: ids)).
  split; [|split; [|split]].
  - by intros ->.
  - intros csr -> Hextra. by rewrite (has_extra_names_true csr Hextra).
  - intros csr -> Hmatch. rewrite Hmatch.
    by destruct (Server.has_extra_names csr).
  - intros csr -> Hd Hi He Hc Hmatch.
    by rewrite (has_extra_names_false csr Hd Hi He Hc), Hmatch.
Qed.

Lemma authRequest_returns_identities_witness :
  let auther := Server.mock (Server.newMockAuthn ["spiffe://foo"; "spiffe://bar"] "") in
  (Server.authRequest auther Server.decode_fixture ()
     (Server.Undecodable "bad csr")).1
  = ("spiffe://foo,spiffe://bar", false) ∧
  (Server.authRequest auther Server.decode_fixture ()
     (Server.genCSR [Server.SetCSRIdentities ["spiffe://foo"; "spiffe://bar"];
                     Server.SetCSRIPs ["8.8.8.8"]])).1
  = ("spiffe://foo,spiffe://bar", false) ∧
  (Server.authRequest auther Server.decode_fixture ()
     (Server.genCSR [Server.SetCSRIdentities ["spiffe://bar"]])).1
  = ("spiffe://foo,spiffe://bar", false) ∧
  (Server.authRequest auther Server.decode_fixture ()
     (Server.genCSR [Server.SetCSRIdentities ["spiffe://foo"; "spiffe://bar"]])).1
  = ("spiffe://foo,spiffe://bar", true).
Proof.
  intros auther.
  set (caller := Server.mkCaller ["spiffe://foo"; "spiffe://bar"]).
  assert (Hauth : Server.Authenticate auther () = inr caller) by reflexivity.
  assert (Hids : Server.Identities caller ≠ []) by discriminate.
  split; [|split; [|split]].
  - destruct (authRequest_returns_identities auther Server.decode_fixture ()
                (Server.Undecodable "bad csr") caller Hauth Hids)
      as (_ & Hbad & _).
    apply Hbad. reflexivity.
  - destruct (authRequest_returns_identities auther Server.decode_fixture ()
                (Server.genCSR
                   [Server.SetCSRIdentities ["spiffe://foo"; "spiffe://bar"];
                    Server.SetCSRIPs ["8.8.8.8"]]) caller Hauth Hids)
      as (_ & _ & Hextra & _).
    eapply Hextra; [reflexivity|]. right. left. simpl. discriminate.
  - destruct (authRequest_returns_identities auther Server.decode_fixture ()
                (Server.genCSR [Server.SetCSRIdentities ["spiffe://bar"]])
                caller Hauth Hids)
      as (_ & _ & _ & Hmismatch & _).
    eapply Hmismatch; reflexivity.
  - destruct (authRequest_returns_identities auther Server.decode_fixture ()
                (Server.genCSR
                   [Server.SetCSRIdentities ["spiffe://foo"; "spiffe://bar"]])
                caller Hauth Hids)
      as (_ & _ & _ & _ & Hok).
    eapply Hok; reflexivity.
Defined.

(** The tables of [auth_test.go] pass on the model. *)
Example TestIdentitiesMatch_passes :
  forallb Server.TestIdentitiesMatch_row Server.TestIdentitiesMatch_table = true.
Proof. by vm_compute. Qed.

Example TestAuthRequest_passes :
  forallb Server.TestAuthRequest_row Server.TestAuthRequest_table = true.
Proof. by vm_compute. Qed.

(** C8: a requested duration above the configured maximum is replaced by
    the maximum and never makes the call fail.  The signing request that is
    built carries the maximum; the call ends as the call that asks for
    exactly the maximum ends; when the authorizer accepts the payload and the
    store creates and issues the request that carries the maximum, the call
    succeeds with the issued certificates; and when the call fails, the
    authorizer rejected the payload or the store failed on that request. *)
Theorem issue_clamps_duration {Payload St : Type} (o : Options.CertManagerOptions)
    (authorize : Payload → string * bool) (sr : Issuance.SigningStore Payload St)
    (payload : Payload) (requested : Options.Duration) (s : St) :
  (Options.MaximumClientCertificateDuration o < requested)%Z →
  let capped identities :=
    Issuance.mkExternalSigningRequest (Options.Namespace o) payload
      (Options.IssuerRef o) (Options.MaximumClientCertificateDuration o) identities in
  Issuance.clamp_duration o requested = Options.MaximumClientCertificateDuration o ∧
  (∀ identities,
     Issuance.build_request o identities payload requested = capped identities) ∧
  Issuance.issue o authorize sr payload requested s
  = Issuance.issue o authorize sr payload (Options.MaximumClientCertificateDuration o) s ∧
  (∀ identities s1 certs s2,
     authorize payload = (identities, true) →
     Issuance.sr_Create sr (capped identities) s = (None, s1) →
     Issuance.sr_Await sr (capped identities) s1 = (inr certs, s2) →
     (Issuance.issue o authorize sr payload requested s).1 = inr certs) ∧
  (∀ failure,
     (Issuance.issue o authorize sr payload requested s).1 = inl failure →
     (authorize payload).2 = false
     ∧ failure = Issuance.AuthorizationError (authorize payload).1
     ∨ (authorize payload).2 = true
       ∧ ∃ msg, failure = Issuance.IssuanceError msg
                ∧ ((Issuance.sr_Create sr (capped (authorize payload).1) s).1 = Some msg
                   ∨ ∃ s1, Issuance.sr_Create sr (capped (authorize payload).1) s
                           = (None, s1)
                           ∧ (Issuance.sr_Await sr (capped (authorize payload).1) s1).1
                             = inl msg)).
Proof.
  intros Hlt capped.
  assert (Hclamp : Issuance.clamp_duration o requested
                   = Options.MaximumClientCertificateDuration o).
  { unfold Issuance.clamp_duration. apply Z.ltb_lt in Hlt. by rewrite Hlt. }
  assert (Hmax : Issuance.clamp_duration o (Options.MaximumClientCertificateDuration o)
                 = Options.MaximumClientCertificateDuration o).
  { unfold Issuance.clamp_duration. by rewrite Z.ltb_irrefl. }
  assert (Hbuild : ∀ identities,
            Issuance.build_request o identities payload requested = capped identities).
  { intros identities. unfold Issuance.build_request. by rewrite Hclamp. }
  split; [exact Hclamp|]. split; [exact Hbuild|]. split; [|split].
  - unfold Issuance.issue, Issuance.build_request. by rewrite Hclamp, Hmax.
  - intros identities s1 certs s2 Hauth Hcreate Hawait.
    unfold Issuance.issue. rewrite Hauth. cbn [negb]. rewrite Hbuild, Hcreate, Hawait.
    reflexivity.
  - intros failure. unfold Issuance.issue.
    destruct (authorize payload) as [identities [|]]; cbn [negb fst snd].
    + rewrite Hbuild. intros Hfail. right. split; [done|].
      destruct (Issuance.sr_Create sr (capped identities) s) as [[msg|] s1] eqn:Hcreate.
      * cbn in Hfail. injection Hfail as <-. exists msg. split; [done|]. by left.
      * destruct (Issuance.sr_Await sr (capped identities) s1) as [[msg|certs] s2]
          eqn:Hawait; cbn in Hfail; [|done].
        injection Hfail as <-. exists msg. split; [done|]. right.
        exists s1. split; [done|]. by rewrite Hawait.
    + intros [= <-]. by left.
Qed.

Lemma issue_clamps_duration_witness :
  (Issuance.issue Options.CertManagerOptions_defaults
     (λ _, ("spiffe://foo", true)) Issuance.echo_store "csr"
     (Options.Hour * 48)%Z []).1 = inr ("chain", "ca").
Proof.
  destruct (issue_clamps_duration Options.CertManagerOptions_defaults
              (λ _, ("spiffe://foo", true)) Issuance.echo_store "csr"
              (Options.Hour * 48)%Z []) as (_ & _ & _ & Hsucceeds & _).
  - reflexivity.
  - eapply (Hsucceeds "spiffe://foo"); reflexivity.
Defined.

(** ** The loop in any order *)

Section RangeOrder.

Lemma range_step_allocates (k v : string) (r : gomap * bool) :
  (r.2 = true → is_Some r.1) →
  (V1.range_step k v r).2 = true → is_Some (V1.range_step k v r).1.
Proof.
  intros Hr. unfold V1.range_step.
  destruct (go_lookup r.1 k) as [kv|]; [case_decide; [done|]|];
    intros _; destruct r.1; simpl; eauto.
Qed.

Lemma range_entries_inv (entries : list (string * string)) (cd : gomap) :
  NoDup entries.*1 →
  range_inv cd (list_to_map entries) (range_entries entries cd) ∧
  ((range_entries entries cd).2 = true → is_Some (range_entries entries cd).1).
Proof.
  unfold range_entries.
  induction entries as [|[k v] entries IH] using rev_ind; intros Hnd.
  - split; [apply range_inv_start|done].
  - rewrite fmap_app in Hnd. apply NoDup_app in Hnd as (Hnd & Hk & _).
    destruct (IH Hnd) as [Hinv Hsome].
    assert (Hfresh : k ∉ entries.*1).
    { intros Hin. apply (Hk k Hin). simpl. apply list_elem_of_here. }
    rewrite foldl_snoc, list_to_map_snoc by done. simpl. split.
    + apply range_inv_step; [|done]. by apply not_elem_of_list_to_map_1.
    + by apply range_step_allocates.
Qed.

Lemma range_data_allocates (d : gmap string string) (cd : gomap) :
  (V1.range_data (Some d) cd).2 = true → is_Some (V1.range_data (Some d) cd).1.
Proof.
  unfold V1.range_data.
  apply (map_fold_weak_ind (λ r _, r.2 = true → is_Some r.1)); [done|].
  intros i x m r _ IH. by apply range_step_allocates.
Qed.

(** The invariant fixes the outcome of the loop. *)
Lemma range_inv_unique (cd : gomap) (m : gmap string string) (r r' : gomap * bool) :
  range_inv cd m r → range_inv cd m r' →
  (r.2 = true → is_Some r.1) → (r'.2 = true → is_Some r'.1) →
  r = r'.
Proof.
  intros [Hl Hc Hd] [Hl' Hc' Hd'] Hs Hs'.
  destruct r as [g [|]], r' as [g' [|]]; simpl in *.
  - destruct (Hs eq_refl) as [x ->], (Hs' eq_refl) as [x' ->].
    do 2 f_equal. apply map_eq. intros k.
    specialize (Hl k). specialize (Hl' k). simpl in *. congruence.
  - assert (false = true) as [=]. by apply Hd', Hd.
  - assert (false = true) as [=]. by apply Hd, Hd'.
  - by rewrite Hc, Hc'.
Qed.

Lemma range_inv_dirty_data (cd : gomap) (m g : gmap string string) :
  range_inv cd m (Some g, true) → g = m ∪ default ∅ cd.
Proof.
  intros [Hl _ _]. apply map_eq. intros k. specialize (Hl k). simpl in Hl.
  rewrite Hl, lookup_union.
  destruct (m !! k) as [v|]; simpl.
  - by destruct (default ∅ cd !! k).
  - destruct cd as [c|]; simpl.
    + by destruct (c !! k).
    + by rewrite lookup_empty.
Qed.

End RangeOrder.

(** ** Further properties of the controller *)

(** X1: the loop over the desired data does not depend on the order in
    which Go hands out the entries.  In every order it ends as the loop of
    the model ends: with the stored data untouched and [notMatch] unset when
    every desired entry is stored already, and otherwise with [notMatch] set
    and the desired entries laid over the stored ones. *)
Theorem range_data_any_order (d : gmap string string) (cd : gomap)
    (entries : list (string * string)) :
  entries ≡ₚ map_to_list d →
  range_entries entries cd = V1.range_data (Some d) cd ∧
  (data_present (Some d) cd → range_entries entries cd = (cd, false)) ∧
  (¬ data_present (Some d) cd →
   range_entries entries cd = (Some (d ∪ default ∅ cd), true)).
Proof.
  intros Hperm.
  assert (Hnd : NoDup entries.*1).
  { rewrite Hperm. apply NoDup_fst_map_to_list. }
  assert (Hmap : list_to_map entries = d).
  { rewrite (list_to_map_proper _ _ Hnd Hperm). apply list_to_map_to_list. }
  destruct (range_entries_inv entries cd Hnd) as [Hinv Hsome].
  rewrite Hmap in Hinv.
  assert (Heq : range_entries entries cd = V1.range_data (Some d) cd).
  { apply (range_inv_unique cd d); [done|apply range_data_inv|done|].
    apply range_data_allocates. }
  split; [exact Heq|]. split.
  - intros Hp. rewrite Heq. by apply range_data_present.
  - intros Hnp. destruct (range_entries entries cd) as [g [|]] eqn:Hr.
    + destruct (Hsome eq_refl) as [x Hx]. simpl in Hx. subst g.
      by rewrite (range_inv_dirty_data cd d x Hinv).
    + exfalso. apply Hnp. symmetry in Heq.
      by apply range_data_clean in Heq as [_ ?].
Qed.

Lemma range_data_any_order_witness :
  range_entries [("b", "2"); ("a", "1")] (Some {[ "a" := "0"; "z" := "9" ]})
  = range_entries [("a", "1"); ("b", "2")] (Some {[ "a" := "0"; "z" := "9" ]}).
Proof.
  set (d := {[ "a" := "1"; "b" := "2" ]} : gmap string string).
  assert (Hab : [("a", "1"); ("b", "2")] ≡ₚ map_to_list d).
  { apply NoDup_Permutation.
    - match goal with |- ?P => refine (bool_decide_unpack P _) end. by vm_compute.
    - apply NoDup_map_to_list.
    - intros [k v]. rewrite elem_of_map_to_list, !elem_of_cons, elem_of_nil.
      subst d. rewrite lookup_insert. case_decide as Hk.
      + subst k. split; [intros [[= <-]|[[=]|[]]]; done|intros [= <-]; by left].
      + rewrite lookup_singleton. case_decide as Hk'.
        * subst k. split; [intros [[=]|[[= <-]|[]]]; done|intros [= <-]; right; by left].
        * split; [intros [[=]|[[=]|[]]]; done|done]. }
  assert (Hba : [("b", "2"); ("a", "1")] ≡ₚ map_to_list d).
  { rewrite <-Hab. apply perm_swap. }
  destruct (range_data_any_order d (Some {[ "a" := "0"; "z" := "9" ]}) _ Hab)
    as [Hab' _].
  destruct (range_data_any_order d (Some {[ "a" := "0"; "z" := "9" ]}) _ Hba)
    as [Hba' _].
  by rewrite Hab', Hba'.
Defined.

Section EnforcerMore.

Context {St : Type}.
Implicit Types (e : V1.enforcer St) (s : St) (cm obj : ConfigMap).

Lemma configmap_error_origin e namespace s err :
  result (V1.enforcer_configmap e namespace s) = Some err →
  error_origin (V1.client e) (key_of e namespace) s
    (V1.enforcer_configmap e namespace s) err.
Proof.
  destruct (client_GetConfigMap (V1.client e) (key_of e namespace) s)
    as [cause|cm] eqn:Hget.
  - destruct (IsNotFound cause) eqn:Hnf.
    + rewrite (configmap_absent _ _ _ _ Hget Hnf). cbn.
      destruct (client_Create _ _ _) as [er s1] eqn:Hcreate. cbn. intros ->.
      right. left. eexists. split; [done|]. exact Hcreate.
    + rewrite (configmap_read_error _ _ _ _ Hget Hnf). cbn. intros [= <-].
      left. exists cause. by rewrite Hget.
  - rewrite (configmap_present _ _ _ _ Hget).
    destruct (needs_update (V1.data e) cm); [|done]. cbn.
    destruct (client_Update _ _ _) as [er s1] eqn:Hupdate. cbn. intros ->.
    right. right. eexists. split; [done|]. exact Hupdate.
Qed.

Lemma configmap_calls_keys e namespace s :
  (∀ cm, client_GetConfigMap (V1.client e) (key_of e namespace) s = inr cm →
         cm_key cm = key_of e namespace) →
  Forall (λ o, op_key o = key_of e namespace)
    (calls (V1.enforcer_configmap e namespace s)).
Proof.
  intros Hkey.
  destruct (client_GetConfigMap (V1.client e) (key_of e namespace) s)
    as [cause|cm] eqn:Hget.
  - destruct (IsNotFound cause) eqn:Hnf.
    + rewrite (configmap_absent _ _ _ _ Hget Hnf). by repeat constructor.
    + rewrite (configmap_read_error _ _ _ _ Hget Hnf). by repeat constructor.
  - rewrite (configmap_present _ _ _ _ Hget).
    destruct (needs_update (V1.data e) cm); cbn.
    + constructor; [done|]. constructor; [|constructor].
      exact (Hkey cm eq_refl).
    + by repeat constructor.
Qed.

Lemma merged_relabelled (desired : gomap) cm :
  data_present desired (cm_Data cm) → merged desired cm = relabelled cm.
Proof.
  intros Hp. unfold merged, relabelled. by rewrite range_data_present.
Qed.

End EnforcerMore.

(** X2: a failed read of the config object, other than not found, stops
    the enforcer of either revision at once: it returns the failure with the
    key, has made no call but the read, and leaves the store as it was.  The
    error it returns does not count as not found. *)
Theorem converge_read_failure {St : Type} (c : Client St)
    (name namespace : string) (s : St) (cause : error) :
  client_GetConfigMap c (mkNamespacedName namespace name) s = inl cause →
  IsNotFound cause = false →
  let key := mkNamespacedName namespace name in
  let stopped := (Some (FailedToGet key cause), s, [OpGetConfigMap key]) in
  (∀ desired : gomap,
     V1.enforcer_configmap (V1.mkEnforcer St c desired name) namespace s = stopped) ∧
  (∀ rootCA : V2.caGetter,
     V2.enforcer_configmap (V2.mkEnforcer St c rootCA name) namespace s = stopped) ∧
  IsNotFound (FailedToGet key cause) = false.
Proof.
  intros Hget Hnf key stopped.
  assert (Hv1 : ∀ desired : gomap,
            V1.enforcer_configmap (V1.mkEnforcer St c desired name) namespace s
            = stopped).
  { intros desired.
    apply (configmap_read_error (V1.mkEnforcer St c desired name) _ _ _ Hget Hnf). }
  split; [exact Hv1|]. split; [|done].
  intros rootCA. rewrite (configmap_V2_as_V1 (V2.mkEnforcer St c rootCA name)).
  apply Hv1.
Qed.

Lemma converge_read_failure_witness :
  V2.enforcer_configmap
    (V2.mkEnforcer _ broken_client Fixtures.getter Fixtures.name)
    "default" Fixtures.steady
  = (Some (FailedToGet (mkNamespacedName "default" Fixtures.name) unavailable),
     Fixtures.steady,
     [OpGetConfigMap (mkNamespacedName "default" Fixtures.name)]).
Proof.
  pose proof (converge_read_failure broken_client Fixtures.name "default"
                Fixtures.steady unavailable eq_refl eq_refl) as (_ & Hv2 & _).
  apply Hv2.
Defined.

(** X3: every error that the enforcer of either revision returns is either
    a failed read, reported with the key and after no write, or the error of
    the single create or update that the run made, returned as the client
    gave it. *)
Theorem converge_error_origin {St : Type} (c : Client St)
    (name namespace : string) (s : St) (err : error) :
  (∀ desired : gomap,
     let r := V1.enforcer_configmap (V1.mkEnforcer St c desired name) namespace s in
     result r = Some err →
     error_origin c (mkNamespacedName namespace name) s r err) ∧
  (∀ rootCA : V2.caGetter,
     let r := V2.enforcer_configmap (V2.mkEnforcer St c rootCA name) namespace s in
     result r = Some err →
     error_origin c (mkNamespacedName namespace name) s r err).
Proof.
  assert (Hv1 : ∀ desired : gomap,
     let r := V1.enforcer_configmap (V1.mkEnforcer St c desired name) namespace s in
     result r = Some err →
     error_origin c (mkNamespacedName namespace name) s r err).
  { intros desired r Hr.
    apply (configmap_error_origin (V1.mkEnforcer St c desired name) _ _ _ Hr). }
  split; [exact Hv1|].
  intros rootCA. rewrite (configmap_V2_as_V1 (V2.mkEnforcer St c rootCA name)).
  apply Hv1.
Qed.

Lemma converge_error_origin_witness :
  let r := V2.enforcer_configmap
             (V2.mkEnforcer _ broken_client Fixtures.getter Fixtures.name)
             "default" Fixtures.bare in
  error_origin broken_client (mkNamespacedName "default" Fixtures.name)
    Fixtures.bare r
    (FailedToGet (mkNamespacedName "default" Fixtures.name) unavailable).
Proof.
  pose proof (converge_error_origin broken_client Fixtures.name "default"
                Fixtures.bare
                (FailedToGet (mkNamespacedName "default" Fixtures.name) unavailable))
    as [_ Hv2].
  apply (Hv2 Fixtures.getter). reflexivity.
Defined.

(** X4: what a run of the enforcer achieves.  Against a store that reads
    back what was written, a run of either revision that returns no error
    leaves the config object in place under its key, with every desired
    entry at its desired value and the marker label set to [true]. *)
Theorem converge_postcondition {St : Type} (c : Client St)
    (name namespace : string) (s : St) :
  ReadsBack c →
  (∀ desired : gomap,
     let r := V1.enforcer_configmap (V1.mkEnforcer St c desired name) namespace s in
     result r = None →
     ∃ cm, client_GetConfigMap c (mkNamespacedName namespace name) (store r) = inr cm
           ∧ converged desired cm) ∧
  (∀ rootCA : V2.caGetter,
     let r := V2.enforcer_configmap (V2.mkEnforcer St c rootCA name) namespace s in
     result r = None →
     ∃ cm, client_GetConfigMap c (mkNamespacedName namespace name) (store r) = inr cm
           ∧ go_lookup (cm_Data cm) "root-cert.pem" = Some (V2.Sprintf_s (rootCA ()))
           ∧ go_lookup (cm_Labels cm) V2.IstioConfigLabelKey = Some "true").
Proof.
  intros laws.
  assert (Hv1 : ∀ desired : gomap,
     let r := V1.enforcer_configmap (V1.mkEnforcer St c desired name) namespace s in
     result r = None →
     ∃ cm, client_GetConfigMap c (mkNamespacedName namespace name) (store r) = inr cm
           ∧ converged desired cm).
  { intros desired r Hr.
    apply (configmap_leaves_converged c laws (V1.mkEnforcer St c desired name)
             namespace s eq_refl Hr). }
  split; [exact Hv1|].
  intros rootCA. rewrite (configmap_V2_as_V1 (V2.mkEnforcer St c rootCA name)).
  intros r Hr. destruct (Hv1 (rootCAConfigData rootCA) Hr) as (cm & Hget & Hdata & Hlabel).
  exists cm. split; [exact Hget|]. split; [|exact Hlabel].
  apply Hdata. simpl. apply lookup_singleton_eq.
Qed.

Lemma converge_postcondition_witness :
  let r := V2.enforcer_configmap Fixtures.enforcer_v2 "default" Fixtures.drifted in
  ∃ cm, Fake.GetConfigMap (mkNamespacedName "default" Fixtures.name) (store r) = inr cm
        ∧ go_lookup (cm_Data cm) "root-cert.pem" = Some "-----BEGIN CERTIFICATE-----"
        ∧ go_lookup (cm_Labels cm) "istio.io/config" = Some "true".
Proof.
  pose proof (converge_postcondition Fake.client Fixtures.name "default"
                Fixtures.drifted fake_reads_back) as [_ Hv2].
  apply (Hv2 Fixtures.getter). reflexivity.
Defined.

(** X5: a run of the enforcer touches one object only.  When the store
    files objects under their own name, every call of a run of either
    revision, the read and the create or update, names the config map of the
    enforcer in the namespace asked for. *)
Theorem converge_touches_one_object {St : Type} (c : Client St)
    (name namespace : string) (s : St) :
  (∀ cm, client_GetConfigMap c (mkNamespacedName namespace name) s = inr cm →
         cm_key cm = mkNamespacedName namespace name) →
  (∀ desired : gomap,
     Forall (λ o, op_key o = mkNamespacedName namespace name)
       (calls (V1.enforcer_configmap (V1.mkEnforcer St c desired name) namespace s))) ∧
  (∀ rootCA : V2.caGetter,
     Forall (λ o, op_key o = mkNamespacedName namespace name)
       (calls (V2.enforcer_configmap (V2.mkEnforcer St c rootCA name) namespace s))).
Proof.
  intros Hkey.
  assert (Hv1 : ∀ desired : gomap,
     Forall (λ o, op_key o = mkNamespacedName namespace name)
       (calls (V1.enforcer_configmap (V1.mkEnforcer St c desired name) namespace s))).
  { intros desired.
    apply (configmap_calls_keys (V1.mkEnforcer St c desired name) namespace s Hkey). }
  split; [exact Hv1|].
  intros rootCA. rewrite (configmap_V2_as_V1 (V2.mkEnforcer St c rootCA name)).
  apply Hv1.
Qed.

Lemma converge_touches_one_object_witness :
  Forall (λ o, op_key o = mkNamespacedName "default" Fixtures.name)
    (calls (V2.enforcer_configmap Fixtures.enforcer_v2 "default" Fixtures.drifted)).
Proof.
  pose proof (converge_touches_one_object Fake.client Fixtures.name "default"
                Fixtures.drifted) as Hone.
  destruct Hone as [_ Hv2].
  - intros cm Hget. by apply (get_key _ fake_reads_back _ _ _ Hget).
  - apply (Hv2 Fixtures.getter).
Defined.

(** X6: when the stored data already holds every desired entry, which is
    always so when the desired data are nil or empty, the only update that
    the enforcer of either revision can send is the stored object with the
    marker label set: the data, nil or not, go back exactly as they were
    read. *)
Theorem converge_relabels_only {St : Type} (c : Client St)
    (name namespace : string) (s : St) (cm : ConfigMap) :
  client_GetConfigMap c (mkNamespacedName namespace name) s = inr cm →
  (∀ desired : gomap,
     data_present desired (cm_Data cm) →
     ∀ obj, OpUpdate obj ∈ calls (V1.enforcer_configmap
                                    (V1.mkEnforcer St c desired name) namespace s) →
            obj = relabelled cm) ∧
  (∀ rootCA : V2.caGetter,
     go_lookup (cm_Data cm) "root-cert.pem" = Some (V2.Sprintf_s (rootCA ())) →
     ∀ obj, OpUpdate obj ∈ calls (V2.enforcer_configmap
                                    (V2.mkEnforcer St c rootCA name) namespace s) →
            obj = relabelled cm).
Proof.
  intros Hget.
  assert (Hv1 : ∀ desired : gomap,
     data_present desired (cm_Data cm) →
     ∀ obj, OpUpdate obj ∈ calls (V1.enforcer_configmap
                                    (V1.mkEnforcer St c desired name) namespace s) →
            obj = relabelled cm).
  { intros desired Hp obj Hin.
    destruct (configmap_present_calls (V1.mkEnforcer St c desired name)
                namespace s cm Hget) as [_ Hupdate].
    rewrite (Hupdate obj Hin). by apply merged_relabelled. }
  split; [exact Hv1|].
  intros rootCA Hroot obj.
  rewrite (configmap_V2_as_V1 (V2.mkEnforcer St c rootCA name)).
  apply Hv1. intros k v. simpl. rewrite lookup_singleton.
  case_decide as Hk; [|done]. subst k. by intros [= <-].
Qed.

Lemma converge_relabels_only_witness :
  let stored := mkConfigMap Fixtures.name "default" None
                  (Some {[ "root-cert.pem" := "stale"; "other" := "kept" ]}) in
  calls (V1.enforcer_configmap (Fixtures.enforcer_v1 None) "default" Fixtures.drifted)
  = [OpGetConfigMap (mkNamespacedName "default" Fixtures.name);
     OpUpdate (relabelled stored)].
Proof.
  intros stored.
  pose proof (converge_relabels_only Fake.client Fixtures.name "default"
                Fixtures.drifted stored eq_refl) as [Hv1 _].
  assert (Hcalls : ∃ obj,
            calls (V1.enforcer_configmap (Fixtures.enforcer_v1 None) "default"
                     Fixtures.drifted)
            = [OpGetConfigMap (mkNamespacedName "default" Fixtures.name);
               OpUpdate obj]).
  { eexists. reflexivity. }
  destruct Hcalls as [obj Hcalls]. rewrite Hcalls.
  assert (Hobj : obj = relabelled stored).
  { apply (Hv1 None).
    - intros k v [=].
    - unfold Fixtures.enforcer_v1 in Hcalls. rewrite Hcalls.
      apply list_elem_of_In. simpl. auto. }
  by rewrite Hobj.
Defined.

Section Reconcilers.

Context {St : Type}.

(** An object that the filter of either revision lets through bears the
    well-known name. *)
Lemma filter_admits (name : string) (obj : ConfigMap) :
  (if decide (cm_Name obj ≠ name) then false else true) = true ↔ cm_Name obj = name.
Proof.
  case_decide as Hn; split; try done.
Qed.

Lemma V1_configmap_Reconcile_eq (c : V1.configmap St) (req : Request) (s : St) :
  V1.configmap_Reconcile c req s =
  let run := V1.enforcer_configmap (V1.configmap_enforcer c)
               (nn_Namespace (req_NamespacedName req)) s in
  match client_GetConfigMap (V1.configmap_client c) (req_NamespacedName req) s with
  | inl err =>
      if IsNotFound err then
        (Result_zero, result run, store run,
         OpGetConfigMap (req_NamespacedName req) :: calls run)
      else
        (Result_zero, Some (FailedToGet (req_NamespacedName req) err), s,
         [OpGetConfigMap (req_NamespacedName req)])
  | inr _ =>
      (Result_zero, result run, store run,
       OpGetConfigMap (req_NamespacedName req) :: calls run)
  end.
Proof.
  unfold V1.configmap_Reconcile, mbind, M_bind, Get_ConfigMap.
  destruct (client_GetConfigMap _ _ _) as [err|cm].
  - destruct (IsNotFound err); simpl; [|done].
    destruct (V1.enforcer_configmap _ _ _) as [[er s1] t1].
    unfold result, store, calls. simpl. by rewrite app_nil_r.
  - destruct (V1.enforcer_configmap _ _ _) as [[er s1] t1].
    unfold result, store, calls. simpl. by rewrite app_nil_r.
Qed.

Lemma V2_configmap_Reconcile_eq (c : V2.configmap St) (req : Request) (s : St) :
  V2.configmap_Reconcile c req s =
  let run := V2.enforcer_configmap (V2.configmap_enforcer c)
               (nn_Namespace (req_NamespacedName req)) s in
  (Result_zero, result run, store run, calls run).
Proof.
  unfold V2.configmap_Reconcile, mbind, M_bind.
  destruct (V2.enforcer_configmap _ _ _) as [[er s1] t1].
  unfold result, store, calls. simpl. by rewrite app_nil_r.
Qed.

End Reconcilers.

(** X7: on the events that the name filter lets through, the config-map
    reconcilers of the two revisions, as their constructors build them for
    the same client, name and root CA, return the same error and leave the
    same store.  When the read of the object fails other than by not found,
    both make that one read and nothing else; in every other case the calls
    of the first revision are the calls of the second after one more read of
    the same object. *)
Theorem configmap_Reconcile_revisions_agree {St : Type} (c : Client St)
    (rootCA : V2.caGetter) (name : string) (obj : ConfigMap) (s : St) :
  let old := Wiring.NewCARootController c name (rootCAConfigData rootCA) in
  let new := Wiring.AddCARootController c rootCA name in
  Wiring.v2_filter new obj = true →
  let r1 := V1.configmap_Reconcile (Wiring.v1_configmap old) (Wiring.request_for obj) s in
  let r2 := V2.configmap_Reconcile (Wiring.v2_configmap new) (Wiring.request_for obj) s in
  let read_fails :=
    ∃ err, client_GetConfigMap c (cm_key obj) s = inl err ∧ IsNotFound err = false in
  Wiring.v1_filter old obj = true ∧
  result r1 = result r2 ∧
  store r1 = store r2 ∧
  (read_fails →
   calls r1 = [OpGetConfigMap (cm_key obj)] ∧
   calls r2 = [OpGetConfigMap (cm_key obj)]) ∧
  (¬ read_fails → calls r1 = OpGetConfigMap (cm_key obj) :: calls r2).
Proof.
  intros old new Hfilter r1 r2 read_fails. split; [exact Hfilter|].
  apply filter_admits in Hfilter.
  subst r1 r2 read_fails.
  rewrite V1_configmap_Reconcile_eq, V2_configmap_Reconcile_eq.
  subst old new. cbn [Wiring.NewCARootController Wiring.AddCARootController
    Wiring.v1_configmap Wiring.v2_configmap V1.configmap_client
    V1.configmap_enforcer V2.configmap_enforcer Wiring.request_for
    req_NamespacedName].
  rewrite (configmap_V2_as_V1 (V2.mkEnforcer St c rootCA name)).
  unfold as_V1. cbn [V2.client V2.rootCA V2.configMapName].
  destruct obj as [objName namespace labels data]. simpl in Hfilter. subst objName.
  set (e := V1.mkEnforcer St c (rootCAConfigData rootCA) name).
  change (cm_key (mkConfigMap name namespace labels data)) with (key_of e namespace).
  cbn [nn_Namespace key_of].
  destruct (client_GetConfigMap c (key_of e namespace) s) as [err|cm] eqn:Hget.
  - destruct (IsNotFound err) eqn:Hnf.
    + cbn. split; [done|]. split; [done|]. split; [|done].
      intros (err' & [= <-] & Hnf'). congruence.
    + rewrite (configmap_read_error e _ _ _ Hget Hnf). cbn.
      split; [done|]. split; [done|]. split; [done|].
      intros Hno. exfalso. apply Hno. by exists err.
  - cbn. split; [done|]. split; [done|]. split; [|done].
    by intros (err' & [=] & _).
Qed.

Lemma configmap_Reconcile_revisions_agree_witness :
  let obj := mkConfigMap Fixtures.name "default" None None in
  let r1 := V1.configmap_Reconcile
              (Wiring.v1_configmap
                 (Wiring.NewCARootController Fake.client Fixtures.name
                    (rootCAConfigData Fixtures.getter)))
              (Wiring.request_for obj) Fixtures.drifted in
  let r2 := V2.configmap_Reconcile
              (Wiring.v2_configmap
                 (Wiring.AddCARootController Fake.client Fixtures.getter Fixtures.name))
              (Wiring.request_for obj) Fixtures.drifted in
  let b1 := V1.configmap_Reconcile
              (Wiring.v1_configmap
                 (Wiring.NewCARootController broken_client Fixtures.name
                    (rootCAConfigData Fixtures.getter)))
              (Wiring.request_for obj) Fixtures.drifted in
  result r1 = result r2 ∧
  calls r1 = OpGetConfigMap (cm_key obj) :: calls r2 ∧
  calls b1 = [OpGetConfigMap (cm_key obj)].
Proof.
  intros obj r1 r2 b1.
  pose proof (configmap_Reconcile_revisions_agree Fake.client Fixtures.getter
                Fixtures.name obj Fixtures.drifted eq_refl)
    as (_ & Hres & _ & _ & Hmore).
  pose proof (configmap_Reconcile_revisions_agree broken_client Fixtures.getter
                Fixtures.name obj Fixtures.drifted eq_refl)
    as (_ & _ & _ & Hone & _).
  split; [exact Hres|]. split.
  - apply Hmore. intros (err & Hget & _). vm_compute in Hget. discriminate.
  - apply Hone. exists unavailable. split; reflexivity.
Defined.

(** X8: the namespace reconcilers of the two revisions, as their
    constructors build them for the same client, name and root CA, are the
    same function of the request and the store: same result, same store left
    behind, same calls. *)
Theorem namespace_Reconcile_revisions_agree {St : Type} (c : Client St)
    (rootCA : V2.caGetter) (name : string) (req : Request) (s : St) :
  V1.namespace_Reconcile
    (Wiring.v1_namespace
       (Wiring.NewCARootController c name (rootCAConfigData rootCA))) req s
  = V2.namespace_Reconcile
      (Wiring.v2_namespace (Wiring.AddCARootController c rootCA name)) req s.
Proof.
  rewrite V1_namespace_Reconcile_eq, V2_namespace_Reconcile_eq.
  cbn [Wiring.NewCARootController Wiring.AddCARootController
    Wiring.v1_namespace Wiring.v2_namespace V1.namespace_client
    V2.namespace_client V1.namespace_enforcer V2.namespace_enforcer].
  by rewrite (configmap_V2_as_V1 (V2.mkEnforcer St c rootCA name)).
Qed.

(** X9: no reconciler of either revision ever asks for a requeue through
    its result: whatever the request, the client and the store, the
    [ctrl.Result] returned is the zero value, so that a retry can only come
    from the error. *)
Theorem Reconcile_result_is_zero {St : Type} (req : Request) (s : St) :
  (∀ n : V1.namespace St, (result (V1.namespace_Reconcile n req s)).1 = Result_zero) ∧
  (∀ n : V2.namespace St, (result (V2.namespace_Reconcile n req s)).1 = Result_zero) ∧
  (∀ c : V1.configmap St, (result (V1.configmap_Reconcile c req s)).1 = Result_zero) ∧
  (∀ c : V2.configmap St, (result (V2.configmap_Reconcile c req s)).1 = Result_zero).
Proof.
  split; [|split; [|split]].
  - intros n. rewrite V1_namespace_Reconcile_eq.
    destruct (client_GetNamespace _ _ _) as [err|ns].
    + by destruct (IsNotFound err).
    + by case_bool_decide.
  - intros n. rewrite V2_namespace_Reconcile_eq.
    destruct (client_GetNamespace _ _ _) as [err|ns].
    + by destruct (IsNotFound err).
    + by case_bool_decide.
  - intros c. rewrite V1_configmap_Reconcile_eq.
    destruct (client_GetConfigMap _ _ _) as [err|cm]; [|done].
    by destruct (IsNotFound err).
  - intros c. by rewrite V2_configmap_Reconcile_eq.
Qed.

(** X10: the two reconcilers that a constructor builds work on the same
    object.  Once the namespace reconciler has run without error for a live
    namespace, against a store that reads back what was written, an event
    that the filter lets through for the config map of that namespace makes
    the config-map reconciler read and nothing else: it returns no error,
    writes nothing and leaves the store as it is.  The first revision reads
    twice, the second once. *)
Theorem reconcilers_converge_together {St : Type} (c : Client St)
    (rootCA : V2.caGetter) (name nsname : string) (s : St) (ns : Namespace)
    (obj : ConfigMap) :
  ReadsBack c →
  client_GetNamespace c (mkNamespacedName "" nsname) s = inr ns →
  ns_Phase ns ≠ NamespaceTerminating →
  let old := Wiring.NewCARootController c name (rootCAConfigData rootCA) in
  let new := Wiring.AddCARootController c rootCA name in
  let r := V2.namespace_Reconcile (Wiring.v2_namespace new)
             (Wiring.namespace_request nsname) s in
  (result r).2 = None →
  Wiring.v2_filter new obj = true →
  cm_Namespace obj = nsname →
  V2.configmap_Reconcile (Wiring.v2_configmap new) (Wiring.request_for obj) (store r)
  = (Result_zero, None, store r, [OpGetConfigMap (cm_key obj)]) ∧
  V1.configmap_Reconcile (Wiring.v1_configmap old) (Wiring.request_for obj) (store r)
  = (Result_zero, None, store r,
     [OpGetConfigMap (cm_key obj); OpGetConfigMap (cm_key obj)]).
Proof.
  intros laws Hns Hphase old new r Hok Hfilter Hobj.
  apply filter_admits in Hfilter.
  destruct obj as [objName namespace labels data]. simpl in Hfilter, Hobj.
  subst objName namespace.
  set (e := V1.mkEnforcer St c (rootCAConfigData rootCA) name).
  assert (Hr : r = enforced (Wiring.namespace_request nsname)
                     (V1.enforcer_configmap e nsname s)).
  { subst r. rewrite V2_namespace_Reconcile_eq. subst new.
    cbn [Wiring.AddCARootController Wiring.v2_namespace V2.namespace_client
         V2.namespace_enforcer Wiring.namespace_request req_NamespacedName].
    rewrite Hns. case_bool_decide; [done|].
    by rewrite (configmap_V2_as_V1 (V2.mkEnforcer St c rootCA name)). }
  assert (Hrun : result (V1.enforcer_configmap e nsname s) = None).
  { by rewrite Hr in Hok. }
  assert (Hstore : store r = store (V1.enforcer_configmap e nsname s)).
  { by rewrite Hr. }
  pose proof (configmap_second_run c laws e nsname s eq_refl Hrun) as Hsecond.
  destruct (configmap_leaves_converged c laws e nsname s eq_refl Hrun)
    as (cm & Hget & _).
  rewrite <-Hstore in Hsecond, Hget.
  rewrite V1_configmap_Reconcile_eq, V2_configmap_Reconcile_eq.
  subst old new.
  cbn [Wiring.NewCARootController Wiring.AddCARootController
    Wiring.v1_configmap Wiring.v2_configmap V1.configmap_client
    V1.configmap_enforcer V2.configmap_enforcer Wiring.request_for
    req_NamespacedName cm_key cm_Namespace cm_Name nn_Namespace].
  rewrite (configmap_V2_as_V1 (V2.mkEnforcer St c rootCA name)).
  change (as_V1 (V2.mkEnforcer St c rootCA name)) with e.
  change (V1.mkEnforcer St c (rootCAConfigData rootCA) name) with e.
  change (cm_key (mkConfigMap name nsname labels data)) with (key_of e nsname).
  rewrite Hget, Hsecond. by cbn.
Qed.

Lemma reconcilers_converge_together_witness :
  let obj := mkConfigMap Fixtures.name "default" None None in
  let new := Wiring.AddCARootController Fake.client Fixtures.getter Fixtures.name in
  let r := V2.namespace_Reconcile (Wiring.v2_namespace new)
             (Wiring.namespace_request "default") Fixtures.bare in
  count_writes (calls r) = 1 ∧
  V2.configmap_Reconcile (Wiring.v2_configmap new) (Wiring.request_for obj) (store r)
  = (Result_zero, None, store r, [OpGetConfigMap (cm_key obj)]).
Proof.
  intros obj new r. split; [reflexivity|].
  apply (reconcilers_converge_together Fake.client Fixtures.getter Fixtures.name
           "default" Fixtures.bare (mkNamespace "default" NamespaceActive) obj
           fake_reads_back).
  - reflexivity.
  - vm_compute. congruence.
  - reflexivity.
  - reflexivity.
  - reflexivity.
Defined.

(** X11: an event for a config map that is gone puts it back.  When the
    filter lets the event through and the object is not found, the
    config-map reconciler of either revision creates the object with the
    well-known name, the root CA entry and the marker label in the namespace
    of the event, and returns what the create returns; it updates
    nothing. *)
Theorem deleted_object_is_recreated {St : Type} (c : Client St)
    (rootCA : V2.caGetter) (name : string) (obj : ConfigMap) (s : St)
    (err : error) :
  let old := Wiring.NewCARootController c name (rootCAConfigData rootCA) in
  let new := Wiring.AddCARootController c rootCA name in
  Wiring.v2_filter new obj = true →
  client_GetConfigMap c (cm_key obj) s = inl err →
  IsNotFound err = true →
  let fresh := fresh_configmap name (cm_Namespace obj) (rootCAConfigData rootCA) in
  let created := client_Create c fresh s in
  V2.configmap_Reconcile (Wiring.v2_configmap new) (Wiring.request_for obj) s
  = (Result_zero, created.1, created.2,
     [OpGetConfigMap (cm_key obj); OpCreate fresh]) ∧
  V1.configmap_Reconcile (Wiring.v1_configmap old) (Wiring.request_for obj) s
  = (Result_zero, created.1, created.2,
     [OpGetConfigMap (cm_key obj); OpGetConfigMap (cm_key obj); OpCreate fresh]).
Proof.
  intros old new Hfilter Hget Hnf fresh created.
  apply filter_admits in Hfilter.
  destruct obj as [objName namespace labels data]. simpl in Hfilter.
  subst objName.
  set (e := V1.mkEnforcer St c (rootCAConfigData rootCA) name).
  change (cm_key (mkConfigMap name namespace labels data))
    with (key_of e namespace) in *.
  rewrite V1_configmap_Reconcile_eq, V2_configmap_Reconcile_eq.
  subst old new.
  cbn [Wiring.NewCARootController Wiring.AddCARootController
    Wiring.v1_configmap Wiring.v2_configmap V1.configmap_client
    V1.configmap_enforcer V2.configmap_enforcer Wiring.request_for
    req_NamespacedName cm_key cm_Namespace cm_Name nn_Namespace].
  rewrite (configmap_V2_as_V1 (V2.mkEnforcer St c rootCA name)).
  change (as_V1 (V2.mkEnforcer St c rootCA name)) with e.
  change (V1.mkEnforcer St c (rootCAConfigData rootCA) name) with e.
  change (cm_key (mkConfigMap name namespace labels data))
    with (key_of e namespace).
  rewrite Hget, Hnf, (configmap_absent e _ _ _ Hget Hnf). by cbn.
Qed.

Lemma deleted_object_is_recreated_witness :
  let obj := mkConfigMap Fixtures.name "default" None None in
  let r := V2.configmap_Reconcile
             (Wiring.v2_configmap
                (Wiring.AddCARootController Fake.client Fixtures.getter Fixtures.name))
             (Wiring.request_for obj) Fixtures.bare in
  calls r = [OpGetConfigMap (cm_key obj);
             OpCreate (fresh_configmap Fixtures.name "default"
                         (rootCAConfigData Fixtures.getter))] ∧
  Fake.GetConfigMap (cm_key obj) (store r)
  = inr (fresh_configmap Fixtures.name "default" (rootCAConfigData Fixtures.getter)).
Proof.
  intros obj r.
  pose proof (deleted_object_is_recreated Fake.client Fixtures.getter Fixtures.name
                obj Fixtures.bare Fake.not_found eq_refl eq_refl eq_refl)
    as [Hv2 _].
  subst r. rewrite Hv2. split; reflexivity.
Defined.
